(** * The TIMIT dataset wrapper (pylearn2/datasets/timit.py)

    A shallow embedding of the constructor [TIMIT.__init__]: label
    densification, boundary extraction, frame segmentation and aggregation,
    and the construction of the visiting order.

    Arrays are lists; array cells, annotation fields and configuration
    values are integers in [Z].  The label arrays have the dtype of the
    loaded recording ([numpy.zeros_like]), an integer dtype of fixed width:
    a label stored in them is converted to it and wraps around.  Python
    exceptions are values of [exn]. *)

From stdpp Require Import base list list_numbers sorting strings.
From Stdlib Require Import ZArith Lia.

Local Open Scope Z_scope.

(** ** Python and numpy primitives *)

Module Py.

(** The exceptions the constructor can raise. *)
Inductive exn : Type :=
| ValueError (msg : string)
| IndexError
| NameError (name : string).

(** A computation that raises: the exception together with the line of
    timit.py whose evaluation raised it. *)
Inductive res (A : Type) : Type :=
| Ok (a : A)
| Raise (line : nat) (e : exn).
Arguments Ok {A} a.
Arguments Raise {A} line e.

Definition bind {A B} (m : res A) (k : A → res B) : res B :=
  match m with
  | Ok a => k a
  | Raise l e => Raise l e
  end.

(** An indexing that may fail, evaluated at a given line. *)
Definition at_line {A} (line : nat) (o : option A) : res A :=
  match o with
  | Some a => Ok a
  | None => Raise line IndexError
  end.

(** A call that may raise, evaluated at a given line. *)
Definition call_at {A} (line : nat) (r : exn + A) : res A :=
  match r with
  | inr a => Ok a
  | inl e => Raise line e
  end.

Definition len {A} (a : list A) : Z := Z.of_nat (length a).

(** One bound of a slice [a[start:stop]] on an array of [n] cells: a
    negative bound counts from the end, and the result is clipped to
    [0..n]. *)
Definition clip (n i : Z) : Z :=
  if i <? 0 then Z.max (i + n) 0 else Z.min i n.

(** [a[start:stop]] *)
Definition slice {A} (a : list A) (start stop : Z) : list A :=
  let lo := clip (len a) start in
  let hi := clip (len a) stop in
  take (Z.to_nat (hi - lo)) (drop (Z.to_nat lo) a).

(** [a[start:stop] = v] on a numpy array: the scalar is written to every
    cell of the slice; the array keeps its length. *)
Definition slice_assign {A} (a : list A) (start stop : Z) (v : A) : list A :=
  let lo := clip (len a) start in
  let hi := clip (len a) stop in
  if lo <? hi
  then take (Z.to_nat lo) a ++ replicate (Z.to_nat (hi - lo)) v
         ++ drop (Z.to_nat hi) a
  else a.

(** [a[i]]: a negative index counts from the end; out of range raises
    IndexError ([None]). *)
Definition index {A} (a : list A) (i : Z) : option A :=
  let k := if i <? 0 then i + len a else i in
  if (0 <=? k) && (k <? len a) then a !! Z.to_nat k else None.

(** [a[i] = v] *)
Definition index_assign {A} (a : list A) (i : Z) (v : A) : option (list A) :=
  let k := if i <? 0 then i + len a else i in
  if (0 <=? k) && (k <? len a) then Some (<[Z.to_nat k := v]> a) else None.

(** [numpy.zeros_like(a)] *)
Definition zeros_like (a : list Z) : list Z := replicate (length a) 0.

(** numpy's integer dtypes. *)
Inductive dtype : Type :=
| int8 | int16 | int32 | int64
| uint8 | uint16 | uint32 | uint64.

Definition bits (d : dtype) : Z :=
  match d with
  | int8 | uint8 => 8
  | int16 | uint16 => 16
  | int32 | uint32 => 32
  | int64 | uint64 => 64
  end.

Definition signed (d : dtype) : bool :=
  match d with
  | int8 | int16 | int32 | int64 => true
  | uint8 | uint16 | uint32 | uint64 => false
  end.

(** The conversion of an integer to a dtype when it is stored in an array:
    the value modulo [2^bits], in two's complement for a signed dtype. *)
Definition astype (d : dtype) (v : Z) : Z :=
  if signed d
  then (v + 2 ^ (bits d - 1)) `mod` 2 ^ bits d - 2 ^ (bits d - 1)
  else v `mod` 2 ^ bits d.


(** [range(n)] and [xrange(0, n)]: empty when [n <= 0]. *)
Definition range (n : Z) : list Z := seqZ 0 n.
Definition xrange (lo hi : Z) : list Z := seqZ lo (hi - lo).

End Py.
Import Py.

#[global] Instance res_bind : MBind res := λ A B k m, bind m k.
#[global] Instance res_ret : MRet res := @Ok.

(** ** The loaded corpus

    The arrays that lines 79-89 load for one partition and that the
    transform reads.  [raw_wav] holds one array of samples per sequence, of
    dtype [wav_dtype].  [phonemes] and [words] are tables of rows
    [(start, end, unit)]; [sequences_to_phonemes] and [sequences_to_words]
    give, per sequence, the range of rows that annotate it. *)

Definition annotation : Type := Z * Z * Z.

Record corpus : Type := Corpus {
  wav_dtype : dtype;
  raw_wav : list (list Z);
  phonemes : list annotation;
  sequences_to_phonemes : list (Z * Z);
  words : list annotation;
  sequences_to_words : list (Z * Z);
  speaker_id : list Z;
  speaker_info_list : list (list Z);
}.

(** ** Label densification (lines 102-106 and 112-116)

    The label array is [numpy.zeros_like(sequence)]: it has the length and
    the dtype [d] of the recording.  [unit + 1] is computed on numpy
    scalars and then stored, converted to [d]; the sum's own wrap-around,
    which can only occur at the largest 64-bit value, is absorbed by that
    conversion. *)

Definition encode (d : dtype) (sequence : list Z) (annotations : list annotation)
    : list Z :=
  foldl (λ encoded '(start, stop, unit),
           slice_assign encoded start stop (astype d (unit + 1)))
        (zeros_like sequence) annotations.

(** ** Boundary extraction (lines 119-129) *)

(** [a[j] != a[j+1]] for [j] in [range(len(a) - 1)], where both cells
    exist. *)
Definition differs (a : list Z) (j : Z) : bool :=
  bool_decide (a !! Z.to_nat j ≠ a !! Z.to_nat (j + 1)).

(** The loop of lines 122-126.  It runs over the phoneme array's indices and
    marks both arrays; the two label arrays have the length of the
    sequence. *)
Definition mark_ends (encoded_phonemes_sequence encoded_words_sequence : list Z)
    (ends : list Z * list Z) : list Z * list Z :=
  foldl (λ '(end_phoneme, end_word) j,
           (if differs encoded_phonemes_sequence j
            then <[Z.to_nat j := 1]> end_phoneme else end_phoneme,
            if differs encoded_words_sequence j
            then <[Z.to_nat j := 1]> end_word else end_word))
        ends (range (len encoded_phonemes_sequence - 1)).

(** Lines 119-129 as a whole; [Raise] is the IndexError of [end[-1] = 1] on
    an empty array. *)
Definition boundaries (encoded_phonemes_sequence encoded_words_sequence : list Z)
    : res (list Z * list Z) :=
  let end_phoneme := zeros_like encoded_phonemes_sequence in
  let end_word := zeros_like encoded_words_sequence in
  let '(end_phoneme, end_word) :=
    mark_ends encoded_phonemes_sequence encoded_words_sequence
              (end_phoneme, end_word) in
  end_phoneme ← at_line 128 (index_assign end_phoneme (-1) 1);
  end_word ← at_line 129 (index_assign end_word (-1) 1);
  Ok (end_phoneme, end_word).

(** ** Aggregation (scipy.stats.mode and ndarray.max along axis 1) *)

Definition count (score : Z) (row : list Z) : Z :=
  len (filter (λ x, x = score) row).

(** [numpy.unique]: the distinct values, ascending. *)
Definition unique (a : list Z) : list Z := merge_sort Z.le (remove_dups a).

(** The most frequent value of a row: the scores are visited in ascending
    order and a score replaces the current one only with a strictly greater
    count, so the smallest value wins a tie. *)
Definition mode_row (scores row : list Z) : Z :=
  (foldl (λ '(oldmostfreq, oldcounts) score,
            let counts := count score row in
            (if oldcounts <? counts then score else oldmostfreq,
             Z.max counts oldcounts))
         (0, 0) scores).1.

(** [scipy.stats.mode(a, axis=1)[0].flatten()] *)
Definition mode (a : list (list Z)) : list Z :=
  let scores := unique (concat a) in
  mode_row scores <$> a.

Definition amax (row : list Z) : option Z :=
  match row with
  | [] => None
  | x :: row => Some (foldl Z.max x row)
  end.

(** [a.max(axis=1)]: a row without cells has no maximum. *)
Definition max_axis1 (a : list (list Z)) : exn + list Z :=
  match mapM amax a with
  | Some m => inr m
  | None => inl (ValueError "zero-size array to reduction operation maximum which has no identity")
  end.

(** ** Frame segmentation *)

(** Modelled from the spec: the number of frames that [segment_axis]
    returns.  [segment_axis] is imported at line 19 from
    research/code/scripts/segmentaxis.py, a file that is not among the
    sources.  Spec 8: the number of full frames is
    [floor((L - overlap) / (frame_length - overlap))] when
    [L >= frame_length], else [0]. *)
Definition frame_count (L frame_length overlap : Z) : Z :=
  if L <? frame_length then 0
  else (L - overlap) `div` (frame_length - overlap).

(** Modelled from the spec: frame [k] of [segment_axis].  Spec 3 and 4.3: a
    frame is a window of [frame_length] cells, and the frames start at
    offsets [0, step, 2*step, ...] with [step = frame_length - overlap]. *)
Definition frame_at {A} (a : list A) (frame_length overlap k : Z) : list A :=
  take (Z.to_nat frame_length) (drop (Z.to_nat (k * (frame_length - overlap))) a).

(** Modelled from the spec: [segment_axis] itself.  Spec 4.3:
    [frame_length <= 0], [overlap >= frame_length] and [overlap < 0] are
    configuration errors; otherwise the full frames are returned in order,
    and a final partial window is dropped. *)
Definition segment_axis {A} (a : list A) (frame_length overlap : Z)
    : exn + list (list A) :=
  if frame_length <=? 0 then inl (ValueError "frame_length <= 0")
  else if frame_length <=? overlap then inl (ValueError "overlap >= frame_length")
  else if overlap <? 0 then inl (ValueError "overlap < 0")
  else inr (frame_at a frame_length overlap
              <$> seqZ 0 (frame_count (len a) frame_length overlap)).

(** ** Names visible in timit.py

    [VectorSpace] and [CompositeSpace] are not assigned in [__init__], so
    Python looks them up among the module's globals and then the builtins. *)

Definition module_globals : list string :=
  ["__name__"; "__doc__"; "__file__"; "__builtins__";
   "__authors__"; "__copyright__"; "__credits__"; "__license__";
   "__maintainer__"; "__email__";
   "os"; "cPickle"; "numpy"; "scipy"; "serial"; "resolve_iterator_class";
   "Dataset"; "segment_axis"; "TIMIT"]%string.

Definition builtins : list string :=
  ["abs"; "all"; "any"; "apply"; "basestring"; "bin"; "bool"; "buffer";
   "bytearray"; "bytes"; "callable"; "chr"; "classmethod"; "cmp"; "coerce";
   "compile"; "complex"; "copyright"; "credits"; "delattr"; "dict"; "dir";
   "divmod"; "enumerate"; "eval"; "execfile"; "exit"; "file"; "filter";
   "float"; "format"; "frozenset"; "getattr"; "globals"; "hasattr"; "hash";
   "help"; "hex"; "id"; "input"; "int"; "intern"; "isinstance"; "issubclass";
   "iter"; "len"; "license"; "list"; "locals"; "long"; "map"; "max";
   "memoryview"; "min"; "next"; "object"; "oct"; "open"; "ord"; "pow";
   "print"; "property"; "quit"; "range"; "raw_input"; "reduce"; "reload";
   "repr"; "reversed"; "round"; "set"; "setattr"; "slice"; "sorted";
   "staticmethod"; "str"; "sum"; "super"; "tuple"; "type"; "unichr";
   "unicode"; "vars"; "xrange"; "zip"; "__import__"; "__debug__";
   "True"; "False"; "None"; "Ellipsis"; "NotImplemented";
   "ArithmeticError"; "AssertionError"; "AttributeError"; "BaseException";
   "BufferError"; "BytesWarning"; "DeprecationWarning"; "EOFError";
   "EnvironmentError"; "Exception"; "FloatingPointError"; "FutureWarning";
   "GeneratorExit"; "IOError"; "ImportError"; "ImportWarning";
   "IndentationError"; "IndexError"; "KeyError"; "KeyboardInterrupt";
   "LookupError"; "MemoryError"; "NameError"; "NotImplementedError";
   "OSError"; "OverflowError"; "PendingDeprecationWarning"; "ReferenceError";
   "RuntimeError"; "RuntimeWarning"; "StandardError"; "StopIteration";
   "SyntaxError"; "SyntaxWarning"; "SystemError"; "SystemExit"; "TabError";
   "TypeError"; "UnboundLocalError"; "UnicodeDecodeError";
   "UnicodeEncodeError"; "UnicodeError"; "UnicodeTranslateError";
   "UnicodeWarning"; "UserWarning"; "ValueError"; "Warning";
   "ZeroDivisionError"]%string.

Definition lookup_name (line : nat) (name : string) : res unit :=
  if bool_decide (name ∈ module_globals ++ builtins) then Ok ()
  else Raise line (NameError name).

(** ** The constructor *)

(** The check of lines 47-49. *)
Definition valid_sets : list string := ["train"; "valid"; "test"]%string.

Definition check_which_set (which_set : string) : res unit :=
  if bool_decide (which_set ∈ valid_sets) then Ok ()
  else Raise 48 (ValueError
         ((which_set +:+ " is not a recognized value. ")
            +:+ "Valid values are ['train', 'valid', 'test']."))%string.

(** What one iteration of the loop computes (lines 98-172).  [end_phoneme]
    and [end_word] are bound twice in the source: to the per-sample arrays
    (here [end_phoneme_samples], [end_word_samples]) and, from lines 168-172
    on, to the per-frame arrays. *)
Record locals : Type := Locals {
  encoded_phonemes_sequence : list Z;
  encoded_words_sequence : list Z;
  end_phoneme_samples : list Z;
  end_word_samples : list Z;
  speaker_info : list Z;
  segmented_sequence : list (list Z);
  segmented_encoded_phonemes_sequence : list Z;
  segmented_encoded_words_sequence : list Z;
  end_phoneme : list Z;
  end_word : list Z;
}.

(** An entry of [self.raw_wav]: the loaded samples, or the frames that line
    176 stores in their place. *)
Inductive wav : Type :=
| Samples (sequence : list Z)
| Frames (segmented_sequence : list (list Z)).

(** The variables that live across iterations: [self.raw_wav] and the lists
    created at lines 92-96. *)
Record loop_state : Type := LoopState {
  self_raw_wav : list wav;
  visiting_order : list (nat * Z);
  segmented_sequences : list (list (list Z));
  segmented_phonemes : list (list Z);
  segmented_words : list (list Z);
  segmented_speaker_info : list (list Z);
}.

Inductive loop_result : Type :=
| Completed (st : loop_state)
| Interrupted (i line : nat) (e : exn).

(** The data specs of lines 184-190. *)
#[warnings="-register-all"]
Inductive space : Type :=
| VectorSpace (dim : Z)
| CompositeSpace (components : list space).

Definition specs : Type := space * (string * string).

(** How a call of the constructor ends: with an exception raised by the
    check of [which_set], inside the loop while sequence [i] is processed,
    or after the loop (when [self.visiting_order] is assigned); or with the
    object constructed and [self.data_specs] assigned. *)
Inductive outcome : Type :=
| RaisedAtCheck (line : nat) (e : exn)
| RaisedInLoop (i line : nat) (e : exn)
| RaisedAfterLoop (st : loop_state) (line : nat) (e : exn)
| Constructed (st : loop_state) (data_specs : specs).

(** Lines 98-134 for sequence [i]: the label arrays, the per-sample
    boundary arrays and the speaker's row. *)
Definition label_sequence (c : corpus) (i : nat) (sequence : list Z)
    : res (list Z * list Z * (list Z * list Z) * list Z) :=
  '(phonemes_list_start, phonemes_list_end) ←
    at_line 99 (index (sequences_to_phonemes c) (Z.of_nat i));
  let phonemes_sequence :=
    slice (phonemes c) phonemes_list_start phonemes_list_end in
  let encoded_phonemes_sequence :=
    encode (wav_dtype c) sequence phonemes_sequence in
  '(words_list_start, words_list_end) ←
    at_line 109 (index (sequences_to_words c) (Z.of_nat i));
  let words_sequence := slice (words c) words_list_start words_list_end in
  let encoded_words_sequence :=
    encode (wav_dtype c) sequence words_sequence in
  ends ← boundaries encoded_phonemes_sequence encoded_words_sequence;
  speaker_id ← at_line 132 (index (speaker_id c) (Z.of_nat i));
  speaker_info ← at_line 134 (index (speaker_info_list c) speaker_id);
  Ok (encoded_phonemes_sequence, encoded_words_sequence, ends, speaker_info).

Section Constructor.

(** The segmentation function the module imports. *)
Variable segment : list Z → Z → Z → exn + list (list Z).

(** Lines 98-172 for sequence [i]. *)
Definition process_sequence (frame_length overlap : Z) (c : corpus)
    (i : nat) (sequence : list Z) : res locals :=
  '(encoded_phonemes_sequence, encoded_words_sequence,
    (end_phoneme_samples, end_word_samples), speaker_info) ←
    label_sequence c i sequence;
  segmented_sequence ← call_at 137 (segment sequence frame_length overlap);
  segmented_encoded_phonemes_sequence ←
    call_at 141 (segment encoded_phonemes_sequence frame_length overlap);
  let segmented_encoded_phonemes_sequence :=
    mode segmented_encoded_phonemes_sequence in
  segmented_encoded_words_sequence ←
    call_at 155 (segment encoded_words_sequence frame_length overlap);
  let segmented_encoded_words_sequence :=
    mode segmented_encoded_words_sequence in
  end_phoneme ← call_at 168 (segment end_phoneme_samples frame_length overlap);
  end_phoneme ← call_at 170 (max_axis1 end_phoneme);
  end_word ← call_at 171 (segment end_word_samples frame_length overlap);
  end_word ← call_at 172 (max_axis1 end_word);
  Ok {| encoded_phonemes_sequence := encoded_phonemes_sequence;
        encoded_words_sequence := encoded_words_sequence;
        end_phoneme_samples := end_phoneme_samples;
        end_word_samples := end_word_samples;
        speaker_info := speaker_info;
        segmented_sequence := segmented_sequence;
        segmented_encoded_phonemes_sequence :=
          segmented_encoded_phonemes_sequence;
        segmented_encoded_words_sequence := segmented_encoded_words_sequence;
        end_phoneme := end_phoneme;
        end_word := end_word |}.

(** Lines 178-179: the references of sequence [i] with [n] frames. *)
Definition visit (frames_per_example : Z) (i : nat) (n : Z)
    (visiting_order : list (nat * Z)) : list (nat * Z) :=
  foldl (λ visiting_order j, visiting_order ++ [(i, j)])
        visiting_order (xrange 0 (n - frames_per_example)).

(** Lines 174-179: the part of an iteration that updates the variables
    outside it. *)
Definition store (frames_per_example : Z) (i : nat) (l : locals)
    (st : loop_state) : loop_state :=
  {| segmented_sequences := segmented_sequences st ++ [segmented_sequence l];
     self_raw_wav := <[i := Frames (segmented_sequence l)]> (self_raw_wav st);
     visiting_order :=
       visit frames_per_example i (len (segmented_sequence l))
             (visiting_order st);
     segmented_phonemes := segmented_phonemes st;
     segmented_words := segmented_words st;
     segmented_speaker_info := segmented_speaker_info st |}.

(** The loop of line 97, from sequence [i] on. *)
Fixpoint loop_from (frame_length overlap frames_per_example : Z) (c : corpus)
    (i : nat) (sequences : list (list Z)) (st : loop_state) : loop_result :=
  match sequences with
  | [] => Completed st
  | sequence :: sequences =>
      match process_sequence frame_length overlap c i sequence with
      | Raise line e => Interrupted i line e
      | Ok l =>
          loop_from frame_length overlap frames_per_example c (S i) sequences
                    (store frames_per_example i l st)
      end
  end.

(** Lines 92-179. *)
Definition loop (frame_length overlap frames_per_example : Z) (c : corpus)
    : loop_result :=
  loop_from frame_length overlap frames_per_example c 0%nat (raw_wav c)
    {| self_raw_wav := Samples <$> raw_wav c;
       visiting_order := [];
       segmented_sequences := [];
       segmented_phonemes := [];
       segmented_words := [];
       segmented_speaker_info := [] |}.

(** Lines 184-190. *)
Definition data_specs (frame_length frames_per_example : Z) : res specs :=
  _ ← lookup_name 184 "VectorSpace";
  let X_space := VectorSpace (frame_length * frames_per_example) in
  let X_source := "features"%string in
  _ ← lookup_name 186 "VectorSpace";
  let y_space := VectorSpace frame_length in
  let y_source := "targets"%string in
  _ ← lookup_name 188 "CompositeSpace";
  let space := CompositeSpace [X_space; y_space] in
  let source := (X_source, y_source) in
  Ok (space, source).

(** [TIMIT.__init__], given the corpus that lines 79-89 load for
    [which_set]. *)
Definition init {R : Type} (which_set : string)
    (frame_length overlap frames_per_example : Z) (rng : R) (c : corpus)
    : outcome :=
  match check_which_set which_set with
  | Raise line e => RaisedAtCheck line e
  | Ok _ =>
      match loop frame_length overlap frames_per_example c with
      | Interrupted i line e => RaisedInLoop i line e
      | Completed st =>
          match data_specs frame_length frames_per_example with
          | Raise line e => RaisedAfterLoop st line e
          | Ok data_specs => Constructed st data_specs
          end
      end
  end.

(** The values that the iterations of the loop compute, in order: the
    locals of lines 98-172 of each sequence, up to the first sequence whose
    transform raises. *)
Fixpoint transformed_from (frame_length overlap : Z) (c : corpus) (i : nat)
    (sequences : list (list Z)) : list locals :=
  match sequences with
  | [] => []
  | sequence :: sequences =>
      match process_sequence frame_length overlap c i sequence with
      | Raise _ _ => []
      | Ok l => l :: transformed_from frame_length overlap c (S i) sequences
      end
  end.

(** Everything that a call of the constructor computes: how it ends, with
    the frames and the visiting order, and the label arrays, boundary
    arrays and per-frame values of each sequence that it transformed. *)
Record construction : Type := Construction {
  ended : outcome;
  transformed : list locals;
}.

Definition construct {R : Type} (which_set : string)
    (frame_length overlap frames_per_example : Z) (rng : R) (c : corpus)
    : construction :=
  {| ended := init which_set frame_length overlap frames_per_example rng c;
     transformed :=
       match check_which_set which_set with
       | Raise _ _ => []
       | Ok _ => transformed_from frame_length overlap c 0%nat (raw_wav c)
       end |}.

End Constructor.

(** The default value of [rng] (line 26). *)
Definition _default_seed : Z * Z * Z := (17, 2, 946).

(** ** Predicates used in the statements *)


(** Sample [k] is covered by an annotation. *)
Definition covers (a : annotation) (k : nat) : Prop :=
  a.1.1 ≤ Z.of_nat k < a.1.2.

#[global] Instance covers_dec a k : Decision (covers a k).
Proof. unfold covers. apply _. Defined.

(** [boundary] marks the ends of the units of [label]: same length, a [1]
    at [j] exactly when the label changes between [j] and [j+1], and a [1]
    in the last cell. *)
Definition boundary_of (label boundary : list Z) : Prop :=
  length boundary = length label ∧
  (∀ (j : nat) (x y : Z), label !! j = Some x → label !! S j = Some y →
     boundary !! j = Some (if bool_decide (x ≠ y) then 1 else 0)) ∧
  boundary !! pred (length label) = Some 1.

(** One component of [mark_ends]. *)
Definition mark (label end_ : list Z) (js : list Z) : list Z :=
  foldl (λ end_ j, if differs label j then <[Z.to_nat j := 1]> end_ else end_)
        end_ js.

(** Spec 4.4, the index builder in the spec's words: for each sequence [i]
    with [n] frames, in order, the references [(i, j)] for [j] in
    [0 .. n - frames_per_example - 1], ascending. *)
Definition window_references (frames_per_example : Z) (frame_counts : list Z)
    : list (nat * Z) :=
  concat (imap (λ i n, (λ j, (i, j)) <$> seqZ 0 (n - frames_per_example))
               frame_counts).


(** The state of the loop when the sequences before [rest] have been
    processed. *)
Definition loop_inv (frames_per_example : Z) (rest : list (list Z))
    (st : loop_state) : Prop :=
  self_raw_wav st = (Frames <$> segmented_sequences st) ++ (Samples <$> rest) ∧
  visiting_order st =
    window_references frames_per_example (len <$> segmented_sequences st) ∧
  segmented_phonemes st = [] ∧
  segmented_words st = [] ∧
  segmented_speaker_info st = [].

(** ** Inputs used in the examples *)

(** Two sequences, the second shorter than a frame of two samples. *)
Definition small_corpus : corpus :=
  {| wav_dtype := int16;
     raw_wav := [[3; 1; 4; 1; 5]; [9]];
     phonemes := [(0, 2, 3); (2, 5, 1)];
     sequences_to_phonemes := [(0, 2); (2, 2)];
     words := [(0, 5, 7)];
     sequences_to_words := [(0, 1); (1, 1)];
     speaker_id := [0; 1];
     speaker_info_list := [[1; 0]; [0; 1]] |}.


(** A corpus without sequences. *)
Definition no_sequences : corpus :=
  {| wav_dtype := int16; raw_wav := []; phonemes := []; sequences_to_phonemes := [];
     words := []; sequences_to_words := [];
     speaker_id := []; speaker_info_list := [] |}.

(** The end-to-end scenario of spec 8: one sequence, with the phoneme
    annotation [(10, 50, 3)] and no word annotation. *)
Definition end_to_end (sequence : list Z) : corpus :=
  {| wav_dtype := int16;
     raw_wav := [sequence];
     phonemes := [(10, 50, 3)];
     sequences_to_phonemes := [(0, 1)];
     words := [];
     sequences_to_words := [(0, 0)];
     speaker_id := [0];
     speaker_info_list := [[0]] |}.

(** ** Further predicates and inputs *)

(** Sample [k] lies in the slice that numpy writes for an annotation on an
    array of [L] cells: the bounds of the annotation after [clip]. *)
Definition covers_clipped (L : Z) (a : annotation) (k : nat) : Prop :=
  clip L a.1.1 ≤ Z.of_nat k < clip L a.1.2.

(** [small_corpus] with other annotations and speakers on the same
    samples. *)
Definition relabelled_corpus : corpus :=
  {| wav_dtype := int16;
     raw_wav := [[3; 1; 4; 1; 5]; [9]];
     phonemes := [(1, 3, 6); (0, 1, 2)];
     sequences_to_phonemes := [(0, 1); (1, 2)];
     words := [];
     sequences_to_words := [(0, 0); (0, 0)];
     speaker_id := [1; 1];
     speaker_info_list := [[7]; [8]] |}.

(** [m] is the logical OR of the marks of a frame. *)
Definition any_mark (frame : list Z) (m : Z) : Prop :=
  (m = 1 ∧ 1 ∈ frame) ∨ (m = 0 ∧ 1 ∉ frame).


(** ** The files of a partition (lines 56-76) *)

(** [s.startswith(prefix)] and [s.endswith(suffix)] *)
Definition startswith (s prefix : string) : bool := String.prefix prefix s.

Definition endswith (s suffix : string) : bool :=
  let n := String.length s in
  let m := String.length suffix in
  (m <=? n)%nat && String.eqb (String.substring (n - m) m s) suffix.

(** [os.path.join(a, b)] of posixpath: an absolute [b] replaces [a];
    otherwise [b] is appended, after a separator unless [a] is empty or
    ends with one. *)
Definition os_path_join (a b : string) : string :=
  if startswith b "/" then b
  else if String.eqb a "" || endswith a "/" then a +:+ b
  else a +:+ "/" +:+ b.

Record paths : Type := Paths {
  speaker_info_list_path : string;
  phonemes_list_path : string;
  words_list_path : string;
  speaker_features_list_path : string;
  speaker_id_list_path : string;
  raw_wav_path : string;
  phonemes_path : string;
  sequences_to_phonemes_path : string;
  words_path : string;
  sequences_to_words_path : string;
  speaker_path : string;
}.

(** Lines 56-76, given the value of [os.environ["PYLEARN2_DATA_PATH"]]. *)
Definition file_paths (data_path which_set : string) : paths :=
  let timit_base_path := os_path_join data_path "timit/readable" in
  {| speaker_info_list_path := os_path_join timit_base_path "spkrinfo.npy";
     phonemes_list_path := os_path_join timit_base_path "reduced_phonemes.pkl";
     words_list_path := os_path_join timit_base_path "words.pkl";
     speaker_features_list_path :=
       os_path_join timit_base_path "spkr_feature_names.pkl";
     speaker_id_list_path := os_path_join timit_base_path "speakers_ids.pkl";
     raw_wav_path := os_path_join timit_base_path (which_set +:+ "_x_raw.npy");
     phonemes_path :=
       os_path_join timit_base_path (which_set +:+ "_redux_phn.npy");
     sequences_to_phonemes_path :=
       os_path_join timit_base_path (which_set +:+ "_seq_to_phn.npy");
     words_path := os_path_join timit_base_path (which_set +:+ "_wrd.npy");
     sequences_to_words_path :=
       os_path_join timit_base_path (which_set +:+ "_seq_to_wrd.npy");
     speaker_path := os_path_join timit_base_path (which_set +:+ "_spkr.npy") |}.

(** The files that do not depend on the partition, and those that do. *)
Definition shared_files (p : paths) : list string :=
  [speaker_info_list_path p; phonemes_list_path p; words_list_path p;
   speaker_features_list_path p; speaker_id_list_path p].

Definition partition_files (p : paths) : list string :=
  [raw_wav_path p; phonemes_path p; sequences_to_phonemes_path p;
   words_path p; sequences_to_words_path p; speaker_path p].

(** * Properties *)

(** ** Slices *)

Lemma clip_bounds (n i : Z) : 0 ≤ n → 0 ≤ clip n i ≤ n.
Proof. unfold clip. case_match; lia. Qed.


Lemma len_nonneg {A} (a : list A) : 0 ≤ len a.
Proof. unfold len. lia. Qed.

Lemma length_slice_assign {A} (a : list A) (start stop : Z) (v : A) :
  length (slice_assign a start stop v) = length a.
Proof.
  unfold slice_assign.
  pose proof (clip_bounds (len a) start (len_nonneg a)).
  pose proof (clip_bounds (len a) stop (len_nonneg a)).
  case_match; [|done].
  rewrite !length_app, length_take, length_replicate, length_drop.
  unfold len in *. lia.
Qed.

(** A cell of [a] after [a[start:stop] = v]. *)
Lemma lookup_slice_assign {A} (a : list A) (start stop : Z) (v : A) (k : nat) :
  (k < length a)%nat →
  slice_assign a start stop v !! k =
    if bool_decide (clip (len a) start ≤ Z.of_nat k < clip (len a) stop)
    then Some v else a !! k.
Proof.
  intros Hk. unfold slice_assign.
  pose proof (clip_bounds (len a) start (len_nonneg a)) as Hlo.
  pose proof (clip_bounds (len a) stop (len_nonneg a)) as Hhi.
  set (lo := clip (len a) start) in *. set (hi := clip (len a) stop) in *.
  unfold len in *.
  destruct (Z.ltb_spec lo hi) as [Hlt|Hge].
  - destruct (decide (Z.of_nat k < lo)) as [Hk1|Hk1].
    { rewrite lookup_app_l by (rewrite length_take; lia).
      rewrite lookup_take_lt by lia.
      rewrite bool_decide_eq_false_2 by lia. done. }
    rewrite lookup_app_r by (rewrite length_take; lia).
    rewrite length_take, Nat.min_l by lia.
    destruct (decide (Z.of_nat k < hi)) as [Hk2|Hk2].
    + rewrite lookup_app_l by (rewrite length_replicate; lia).
      rewrite lookup_replicate_2 by lia.
      rewrite bool_decide_eq_true_2 by lia. done.
    + rewrite lookup_app_r by (rewrite length_replicate; lia).
      rewrite length_replicate, lookup_drop.
      rewrite bool_decide_eq_false_2 by lia. f_equal. lia.
  - rewrite bool_decide_eq_false_2 by lia. done.
Qed.

(** ** Label densification *)

Lemma encode_snoc (d : dtype) (sequence : list Z)
    (annotations : list annotation) (start stop unit : Z) :
  encode d sequence (annotations ++ [(start, stop, unit)]) =
  slice_assign (encode d sequence annotations) start stop
               (astype d (unit + 1)).
Proof. unfold encode. by rewrite foldl_snoc. Qed.

Lemma length_encode (d : dtype) (sequence : list Z)
    (annotations : list annotation) :
  length (encode d sequence annotations) = length sequence.
Proof.
  induction annotations as [|[[start stop] unit] annotations IH] using rev_ind.
  - apply length_replicate.
  - by rewrite encode_snoc, length_slice_assign.
Qed.




(** In a recording of 16-bit samples the label 40001 does not fit: the
    cells of the annotation [(0, 2, 40000)] hold -25535. *)
Example encode_wraps :
  encode int16 [1; 2; 3] [(0, 2, 40000)] = [-25535; -25535; 0].
Proof. vm_compute. reflexivity. Qed.


(** ** Boundary extraction *)

Lemma foldl_mark_ends (p w : list Z) (js : list Z) (ep ew : list Z) :
  foldl (λ '(end_phoneme, end_word) j,
           (if differs p j then <[Z.to_nat j := 1]> end_phoneme else end_phoneme,
            if differs w j then <[Z.to_nat j := 1]> end_word else end_word))
        (ep, ew) js
  = (mark p ep js, mark w ew js).
Proof.
  revert ep ew. induction js as [|j js IH]; intros ep ew; [done|].
  simpl. by rewrite IH.
Qed.

Lemma length_mark (label end_ js : list Z) :
  length (mark label end_ js) = length end_.
Proof.
  revert end_. induction js as [|j js IH]; intros end_; [done|].
  simpl. rewrite IH. case_match; [apply length_insert|done].
Qed.

Lemma differs_spec (label : list Z) (j : nat) (x y : Z) :
  label !! j = Some x → label !! S j = Some y →
  differs label (Z.of_nat j) = bool_decide (x ≠ y).
Proof.
  intros Hx Hy. unfold differs.
  replace (Z.to_nat (Z.of_nat j + 1)) with (S j) by lia.
  rewrite Nat2Z.id, Hx, Hy. apply bool_decide_ext. naive_solver.
Qed.

(** The cells of an array after the marking loop has run over the indices
    [0 .. m-1]. *)
Lemma lookup_mark (label end_ : list Z) (m j : nat) :
  (j < length end_)%nat →
  mark label end_ (seqZ 0 (Z.of_nat m)) !! j =
    if bool_decide (j < m)%nat && differs label (Z.of_nat j)
    then Some 1 else end_ !! j.
Proof.
  intros Hj. induction m as [|m IH].
  - by rewrite seqZ_nil.
  - rewrite seqZ_S. unfold mark in *. rewrite foldl_snoc, Z.add_0_l.
    fold (mark label end_ (seqZ 0 (Z.of_nat m))) in *.
    destruct (differs label (Z.of_nat m)) eqn:Hd.
    + rewrite Nat2Z.id. destruct (decide (m = j)) as [->|Hne].
      * rewrite list_lookup_insert_eq by (by rewrite length_mark).
        by rewrite bool_decide_eq_true_2, Hd by lia.
      * rewrite list_lookup_insert_ne, IH by done.
        destruct (decide (j < m)%nat).
        -- by rewrite !bool_decide_eq_true_2 by lia.
        -- by rewrite !bool_decide_eq_false_2 by lia.
    + rewrite IH. destruct (decide (m = j)) as [->|Hne].
      * rewrite bool_decide_eq_false_2 by lia.
        by rewrite bool_decide_eq_true_2, Hd by lia.
      * destruct (decide (j < m)%nat).
        -- by rewrite !bool_decide_eq_true_2 by lia.
        -- by rewrite !bool_decide_eq_false_2 by lia.
Qed.

Lemma index_assign_last (a : list Z) (v : Z) :
  (1 ≤ length a)%nat →
  index_assign a (-1) v = Some (<[pred (length a) := v]> a).
Proof.
  intros Ha. unfold index_assign, len. simpl.
  destruct (Z.leb_spec 0 (-1 + Z.of_nat (length a))); [|lia].
  destruct (Z.ltb_spec (-1 + Z.of_nat (length a)) (Z.of_nat (length a))); [|lia].
  simpl. do 2 f_equal. lia.
Qed.

(** The per-sample boundary array of one label array. *)
Lemma boundary_of_mark (label : list Z) :
  (1 ≤ length label)%nat →
  boundary_of label
    (<[pred (length label) := 1]>
       (mark label (zeros_like label) (range (len label - 1)))).
Proof.
  intros Hlen. unfold range, len.
  replace (Z.of_nat (length label) - 1) with (Z.of_nat (pred (length label)))
    by lia.
  assert (Hz : length (zeros_like label) = length label)
    by apply length_replicate.
  split_and!.
  - by rewrite length_insert, length_mark.
  - intros j x y Hx Hy.
    assert (S j < length label)%nat by (by eapply lookup_lt_Some).
    rewrite list_lookup_insert_ne by lia.
    rewrite lookup_mark by lia.
    rewrite bool_decide_eq_true_2 by lia. simpl.
    rewrite (differs_spec label j x y Hx Hy).
    unfold zeros_like. rewrite lookup_replicate_2 by lia.
    by case_bool_decide.
  - rewrite list_lookup_insert_eq; [done|]. rewrite length_mark. lia.
Qed.

(** Boundary extraction on label arrays of at least one sample. *)
Lemma boundaries_nonempty (phoneme_labels word_labels : list Z) :
  (1 ≤ length phoneme_labels)%nat →
  length word_labels = length phoneme_labels →
  ∃ end_phoneme end_word,
    boundaries phoneme_labels word_labels = Ok (end_phoneme, end_word) ∧
    boundary_of phoneme_labels end_phoneme ∧
    boundary_of word_labels end_word.
Proof.
  intros Hlen Hw.
  pose proof (boundary_of_mark phoneme_labels Hlen) as Hp.
  pose proof (boundary_of_mark word_labels ltac:(lia)) as Hq.
  eexists _, _. split; [|split; [exact Hp|exact Hq]].
  unfold boundaries, mark_ends. rewrite foldl_mark_ends.
  rewrite !index_assign_last
    by (rewrite length_mark; unfold zeros_like; rewrite length_replicate; lia).
  simpl. rewrite !length_mark. unfold zeros_like at 1 3.
  rewrite !length_replicate. unfold len. by rewrite Hw.
Qed.

(** On an empty label array, [end_phoneme[-1] = 1] raises. *)
Lemma boundaries_empty (word_labels : list Z) :
  boundaries [] word_labels = Raise 128 IndexError.
Proof. reflexivity. Qed.

(** C3.  For label arrays of at least one sample, boundary extraction
    succeeds and gives, for each, an array of the same length that holds [1]
    at [j <= L-2] when the label changes between [j] and [j+1] and [0]
    otherwise, and [1] in its last cell. *)
Theorem C3_boundary_extraction (phoneme_labels word_labels : list Z) :
  (1 ≤ length phoneme_labels)%nat →
  length word_labels = length phoneme_labels →
  ∃ end_phoneme end_word,
    boundaries phoneme_labels word_labels = Ok (end_phoneme, end_word) ∧
    boundary_of phoneme_labels end_phoneme ∧
    boundary_of word_labels end_word.
Proof. apply boundaries_nonempty. Qed.

Lemma C3_boundary_extraction_witness :
  ∃ end_phoneme end_word,
    boundaries [0; 4; 4; 0; 0] [2; 2; 2; 2; 0] = Ok (end_phoneme, end_word) ∧
    boundary_of [0; 4; 4; 0; 0] end_phoneme ∧
    boundary_of [2; 2; 2; 2; 0] end_word.
Proof.
  apply (C3_boundary_extraction [0; 4; 4; 0; 0] [2; 2; 2; 2; 0]).
  - simpl. lia.
  - reflexivity.
Defined.

(** ** The index of training windows *)

Lemma window_references_snoc (frames_per_example : Z) (counts : list Z) (n : Z) :
  window_references frames_per_example (counts ++ [n]) =
  window_references frames_per_example counts
    ++ ((λ j, (length counts, j)) <$> seqZ 0 (n - frames_per_example)).
Proof.
  unfold window_references. rewrite imap_app, concat_app. simpl.
  by rewrite app_nil_r, Nat.add_0_r.
Qed.

Lemma elem_of_window_references (frames_per_example : Z) (counts : list Z)
    (i : nat) (j : Z) :
  (i, j) ∈ window_references frames_per_example counts ↔
  ∃ n, counts !! i = Some n ∧ 0 ≤ j < n - frames_per_example.
Proof.
  induction counts as [|n counts IH] using rev_ind.
  - split; [by intros ?%elem_of_nil|]. intros (n & Hn & _).
    by rewrite lookup_nil in Hn.
  - rewrite window_references_snoc, elem_of_app, IH, list_elem_of_fmap.
    split.
    + intros [(m & Hm & Hj)|(j' & [= -> ->] & Hj)].
      * exists m. split; [by apply lookup_app_l_Some|done].
      * apply elem_of_seqZ in Hj. exists n. split; [|lia].
        by rewrite lookup_app_r, Nat.sub_diag by lia.
    + intros (m & Hm & Hj).
      destruct (decide (i < length counts)%nat) as [Hlt|Hge].
      * left. exists m. by rewrite lookup_app_l in Hm.
      * right. rewrite lookup_app_r in Hm by lia.
        apply list_lookup_singleton_Some in Hm as [Hi <-].
        exists j. split; [f_equal; lia|]. apply elem_of_seqZ. lia.
Qed.



Lemma foldl_snoc_each {A B} (f : B → A) (acc : list A) (l : list B) :
  foldl (λ acc x, acc ++ [f x]) acc l = acc ++ (f <$> l).
Proof.
  revert acc. induction l as [|x l IH]; intros acc; simpl.
  - by rewrite app_nil_r.
  - by rewrite IH, <- app_assoc.
Qed.

Section Loop.

Variable segment : list Z → Z → Z → exn + list (list Z).

Lemma visit_app (frames_per_example : Z) (i : nat) (n : Z)
    (visiting_order : list (nat * Z)) :
  visit frames_per_example i n visiting_order =
  visiting_order ++ ((λ j, (i, j)) <$> seqZ 0 (n - frames_per_example)).
Proof.
  unfold visit, xrange. rewrite Z.sub_0_r. apply foldl_snoc_each.
Qed.

Lemma loop_inv_store (frames_per_example : Z) (sequence : list Z)
    (rest : list (list Z)) (l : locals) (st : loop_state) :
  loop_inv frames_per_example (sequence :: rest) st →
  loop_inv frames_per_example rest
    (store frames_per_example (length (segmented_sequences st)) l st).
Proof.
  intros (Hraw & Hvo & Hp & Hw & Hs). unfold loop_inv, store. simpl.
  split_and!; try done.
  - rewrite Hraw, insert_app_r_alt by (by rewrite length_fmap).
    rewrite length_fmap, Nat.sub_diag, fmap_app. simpl.
    by rewrite <- app_assoc.
  - rewrite visit_app, Hvo, fmap_app. simpl.
    by rewrite window_references_snoc, length_fmap.
Qed.

(** The loop keeps its invariant, and it is interrupted only by an
    exception of the per-sequence transform: storing the frames and
    extending the visiting order (lines 174-179) raise nothing. *)
Lemma loop_from_inv (frame_length overlap frames_per_example : Z) (c : corpus)
    (rest : list (list Z)) (st : loop_state) :
  loop_inv frames_per_example rest st →
  match loop_from segment frame_length overlap frames_per_example c
          (length (segmented_sequences st)) rest st with
  | Completed st' =>
      loop_inv frames_per_example [] st' ∧
      length (segmented_sequences st') =
        (length (segmented_sequences st) + length rest)%nat
  | Interrupted i line e =>
      ∃ sequence,
        rest !! (i - length (segmented_sequences st))%nat = Some sequence ∧
        (length (segmented_sequences st) ≤ i)%nat ∧
        process_sequence segment frame_length overlap c i sequence
          = Raise line e
  end.
Proof.
  revert st. induction rest as [|sequence rest IH]; intros st Hinv; simpl.
  - split; [done|lia].
  - destruct (process_sequence _ _ _ _ _ _) as [l|line e] eqn:Hl.
    + pose proof (loop_inv_store _ _ _ l _ Hinv) as Hinv'.
      specialize (IH _ Hinv').
      assert (Hlen : length (segmented_sequences
                (store frames_per_example (length (segmented_sequences st)) l st))
              = S (length (segmented_sequences st))).
      { simpl. rewrite length_app. simpl. lia. }
      rewrite Hlen in IH.
      destruct (loop_from _ _ _ _ _ _ _ _) as [st'|i line e].
      * destruct IH as [? ?]. split; [done|lia].
      * destruct IH as (sequence' & Hs & Hle & Hraise).
        exists sequence'. split_and!; [|lia|done].
        replace (i - length (segmented_sequences st))%nat
          with (S (i - S (length (segmented_sequences st)))) by lia.
        done.
    + exists sequence. by rewrite Nat.sub_diag.
Qed.

End Loop.



(** ** What the loop leaves behind *)

Section Outputs.

Variable segment : list Z → Z → Z → exn + list (list Z).

Lemma process_sequence_frames (frame_length overlap : Z) (c : corpus)
    (i : nat) (sequence : list Z) (l : locals) :
  process_sequence segment frame_length overlap c i sequence = Ok l →
  segment sequence frame_length overlap = inr (segmented_sequence l).
Proof.
  unfold process_sequence. intros Hl.
  destruct (label_sequence c i sequence)
    as [[[[enc_p enc_w] [end_p end_w]] info]|]; [|done].
  simpl in Hl.
  repeat match type of Hl with
  | context [call_at _ ?r] =>
      destruct r as [?|?] eqn:?; simpl in Hl; [done|]
  end.
  by injection Hl as <-.
Qed.

(** The frames that the loop stores are those of the raw samples. *)
Lemma loop_from_frames (frame_length overlap frames_per_example : Z)
    (c : corpus) (rest : list (list Z)) (i : nat) (st st' : loop_state) :
  loop_from segment frame_length overlap frames_per_example c i rest st
    = Completed st' →
  ∃ new, segmented_sequences st' = segmented_sequences st ++ new ∧
    Forall2 (λ sequence frames,
               segment sequence frame_length overlap = inr frames) rest new.
Proof.
  revert i st. induction rest as [|sequence rest IH]; intros i st Hst; simpl in *.
  - injection Hst as <-. exists []. by rewrite app_nil_r.
  - destruct (process_sequence _ _ _ _ _ _) as [l|] eqn:Hl; [|done].
    apply IH in Hst as (new & Hnew & Hall). simpl in Hnew.
    exists (segmented_sequence l :: new). split.
    + by rewrite Hnew, <- app_assoc.
    + constructor; [|done]. by eapply process_sequence_frames.
Qed.

End Outputs.

(** C7.  What the code does: when the loop completes, the lists created for
    the frame-aggregated phoneme and word labels (and the speaker rows) are
    still empty; the object holds the frames of the raw samples and the
    visiting order, and nothing derived from the annotations. *)
Theorem C7_labels_not_stored (segment : list Z → Z → Z → exn + list (list Z))
    (frame_length overlap frames_per_example : Z) (c : corpus)
    (st : loop_state) :
  loop segment frame_length overlap frames_per_example c = Completed st →
  segmented_phonemes st = [] ∧
  segmented_words st = [] ∧
  segmented_speaker_info st = [] ∧
  self_raw_wav st = Frames <$> segmented_sequences st ∧
  Forall2 (λ sequence frames, segment sequence frame_length overlap = inr frames)
          (raw_wav c) (segmented_sequences st) ∧
  visiting_order st =
    window_references frames_per_example (len <$> segmented_sequences st).
Proof.
  intros Hst. unfold loop in Hst.
  set (st0 := {| self_raw_wav := Samples <$> raw_wav c; visiting_order := [];
                 segmented_sequences := []; segmented_phonemes := [];
                 segmented_words := []; segmented_speaker_info := [] |}) in Hst.
  assert (Hinv0 : loop_inv frames_per_example (raw_wav c) st0) by done.
  pose proof (loop_from_inv segment frame_length overlap frames_per_example
                c _ _ Hinv0) as Hloop.
  simpl in Hloop. rewrite Hst in Hloop.
  destruct Hloop as [(Hraw & Hvo & Hp & Hw & Hs) _].
  apply loop_from_frames in Hst as (new & Hnew & Hall). simpl in Hnew.
  rewrite app_nil_r in Hraw. rewrite <- Hnew in Hall.
  by split_and!.
Qed.

(** On [small_corpus]: the majority labels of the first sequence are
    computed, and no variable of the final state holds them. *)
Example labels_computed_then_dropped :
  (∃ l, process_sequence segment_axis 2 0 small_corpus 0 [3; 1; 4; 1; 5] = Ok l ∧
        segmented_encoded_phonemes_sequence l = [4; 2] ∧
        segmented_encoded_words_sequence l = [8; 8]) ∧
  loop segment_axis 2 0 1 small_corpus =
    Completed {| self_raw_wav := [Frames [[3; 1]; [4; 1]]; Frames []];
                 visiting_order := [(0%nat, 0)];
                 segmented_sequences := [[[3; 1]; [4; 1]]; []];
                 segmented_phonemes := [];
                 segmented_words := [];
                 segmented_speaker_info := [] |}.
Proof. split; [eexists; split_and!|]; vm_compute; reflexivity. Qed.

Lemma C7_labels_not_stored_witness :
  ∃ st, loop segment_axis 2 0 1 small_corpus = Completed st ∧
    segmented_phonemes st = [] ∧
    segmented_words st = [] ∧
    segmented_speaker_info st = [] ∧
    self_raw_wav st = Frames <$> segmented_sequences st ∧
    Forall2 (λ sequence frames, segment_axis sequence 2 0 = inr frames)
            (raw_wav small_corpus) (segmented_sequences st) ∧
    visiting_order st = window_references 1 (len <$> segmented_sequences st).
Proof.
  eexists. split; [vm_compute; reflexivity|].
  apply (C7_labels_not_stored segment_axis 2 0 1 small_corpus).
  vm_compute. reflexivity.
Defined.

(** ** The check of [which_set], the [rng] argument and the data specs *)

Lemma append_assoc (s1 s2 s3 : string) :
  (s1 +:+ s2) +:+ s3 = s1 +:+ (s2 +:+ s3).
Proof.
  induction s1 as [|a s1 IH]; [done|].
  change (String a ((s1 +:+ s2) +:+ s3) = String a (s1 +:+ s2 +:+ s3)).
  by rewrite IH.
Qed.

(** C8.  A [which_set] other than "train", "valid" and "test" makes the
    constructor raise, at the check, a ValueError whose message starts with
    the value given; the three values pass the check. *)
Theorem C8_which_set (segment : list Z → Z → Z → exn + list (list Z))
    {R : Type} (which_set : string)
    (frame_length overlap frames_per_example : Z) (rng : R) (c : corpus) :
  (which_set ∉ valid_sets →
     init segment which_set frame_length overlap frames_per_example rng c
       = RaisedAtCheck 48 (ValueError (which_set +:+
           " is not a recognized value. Valid values are ['train', 'valid', 'test']."))) ∧
  (which_set ∈ valid_sets →
     check_which_set which_set = Ok () ∧
     ∀ line e,
       init segment which_set frame_length overlap frames_per_example rng c
         ≠ RaisedAtCheck line e).
Proof.
  unfold init, check_which_set. split; intros Hws.
  - rewrite bool_decide_eq_false_2 by done.
    by rewrite append_assoc.
  - rewrite bool_decide_eq_true_2 by done. split; [done|].
    intros line e. by repeat case_match.
Qed.

Lemma C8_which_set_witness :
  init segment_axis "dev" 20 10 4 _default_seed small_corpus
    = RaisedAtCheck 48 (ValueError
        "dev is not a recognized value. Valid values are ['train', 'valid', 'test'].") ∧
  check_which_set "valid" = Ok () ∧
  ∀ line e,
    init segment_axis "valid" 20 10 4 _default_seed small_corpus
      ≠ RaisedAtCheck line e.
Proof.
  split.
  - apply (C8_which_set segment_axis "dev" 20 10 4 _default_seed small_corpus).
    vm_compute. intros H. repeat (inversion H as [|? ? ? H']; clear H; rename H' into H).
  - apply (C8_which_set segment_axis "valid" 20 10 4 _default_seed small_corpus).
    unfold valid_sets. repeat constructor.
Defined.

(** The frames that the loop stores are those of the values that its
    iterations computed, and it is interrupted at the first sequence for
    which there is none. *)
Lemma loop_from_transformed
    (segment : list Z → Z → Z → exn + list (list Z))
    (frame_length overlap frames_per_example : Z) (c : corpus)
    (rest : list (list Z)) (i : nat) (st : loop_state) :
  match loop_from segment frame_length overlap frames_per_example c i rest st
  with
  | Completed st' =>
      segmented_sequences st' =
        segmented_sequences st
          ++ (segmented_sequence
                <$> transformed_from segment frame_length overlap c i rest) ∧
      length (transformed_from segment frame_length overlap c i rest)
        = length rest
  | Interrupted j _ _ =>
      j = (i + length (transformed_from segment frame_length overlap c i rest))%nat
  end.
Proof.
  revert i st. induction rest as [|sequence rest IH]; intros i st; simpl.
  - by rewrite app_nil_r.
  - destruct (process_sequence _ _ _ _ _ _) as [l|line e]; simpl; [|lia].
    specialize (IH (S i) (store frames_per_example i l st)).
    destruct (loop_from _ _ _ _ _ _ _ _) as [st'|j line e].
    + destruct IH as [-> ->]. simpl. by rewrite <- app_assoc.
    + lia.
Qed.

(** C9.  The constructor does not read [rng]: two calls that differ only in
    it compute the same things, namely the way the call ends, the frames
    and the visiting order, and for every sequence that is transformed its
    label arrays, per-sample boundary arrays, per-frame labels and
    per-frame boundary marks.  These per-sequence values are those of the
    run: the frames that the loop stores are theirs, one per sequence when
    the loop completes, and the loop is interrupted at the first sequence
    that has none. *)
Theorem C9_rng_not_consumed (segment : list Z → Z → Z → exn + list (list Z))
    {R1 R2 : Type} (rng1 : R1) (rng2 : R2) (which_set : string)
    (frame_length overlap frames_per_example : Z) (c : corpus) :
  construct segment which_set frame_length overlap frames_per_example rng1 c =
  construct segment which_set frame_length overlap frames_per_example rng2 c ∧
  match ended (construct segment which_set frame_length overlap
                 frames_per_example rng1 c) with
  | RaisedAtCheck _ _ =>
      transformed (construct segment which_set frame_length overlap
                     frames_per_example rng1 c) = []
  | RaisedInLoop i _ _ =>
      length (transformed (construct segment which_set frame_length overlap
                             frames_per_example rng1 c)) = i
  | RaisedAfterLoop st _ _ | Constructed st _ =>
      segmented_sequences st =
        segmented_sequence
          <$> transformed (construct segment which_set frame_length overlap
                             frames_per_example rng1 c) ∧
      length (transformed (construct segment which_set frame_length overlap
                             frames_per_example rng1 c))
        = length (raw_wav c)
  end.
Proof.
  split; [reflexivity|].
  unfold construct, init. simpl.
  destruct (check_which_set which_set) as [[]|line e]; [|done].
  unfold loop.
  match goal with
  | |- context [loop_from _ _ _ _ _ _ _ ?st] =>
      pose proof (loop_from_transformed segment frame_length overlap
                    frames_per_example c (raw_wav c) 0 st) as H
  end.
  destruct (loop_from _ _ _ _ _ _ _ _) as [st'|i line e].
  - simpl in H. by destruct (data_specs frame_length frames_per_example).
  - simpl in H. by rewrite H.
Qed.

Lemma data_specs_raises (frame_length frames_per_example : Z) :
  data_specs frame_length frames_per_example
    = Raise 184 (NameError "VectorSpace").
Proof. vm_compute. reflexivity. Qed.

(** C10.  Neither [VectorSpace] nor [CompositeSpace] is bound in the module
    or among the builtins.  So no call of the constructor ends with the
    object constructed, and every call that gets through the loop raises
    NameError at line 184, before [self.data_specs] is assigned. *)
Theorem C10_data_specs_never_assigned
    (segment : list Z → Z → Z → exn + list (list Z))
    {R : Type} (which_set : string)
    (frame_length overlap frames_per_example : Z) (rng : R) (c : corpus) :
  ("VectorSpace"%string ∉ module_globals ++ builtins) ∧
  ("CompositeSpace"%string ∉ module_globals ++ builtins) ∧
  (∀ st data_specs,
     init segment which_set frame_length overlap frames_per_example rng c
       ≠ Constructed st data_specs) ∧
  (∀ st, which_set ∈ valid_sets →
     loop segment frame_length overlap frames_per_example c = Completed st →
     init segment which_set frame_length overlap frames_per_example rng c
       = RaisedAfterLoop st 184 (NameError "VectorSpace")).
Proof.
  split_and!.
  - apply (bool_decide_eq_false_1 _). vm_compute. reflexivity.
  - apply (bool_decide_eq_false_1 _). vm_compute. reflexivity.
  - intros st ds. unfold init. rewrite data_specs_raises.
    by repeat case_match.
  - intros st Hws Hst. unfold init, check_which_set.
    by rewrite bool_decide_eq_true_2, Hst, data_specs_raises by done.
Qed.

Lemma C10_data_specs_never_assigned_witness :
  ∃ st, loop segment_axis 2 0 1 small_corpus = Completed st ∧
    init segment_axis "valid" 2 0 1 _default_seed small_corpus
      = RaisedAfterLoop st 184 (NameError "VectorSpace").
Proof.
  eexists. split; [vm_compute; reflexivity|].
  apply (C10_data_specs_never_assigned segment_axis "valid" 2 0 1
           _default_seed small_corpus).
  - unfold valid_sets. repeat constructor.
  - vm_compute. reflexivity.
Defined.

(** ** Segmentation as the spec describes it *)

Lemma segment_axis_valid {A} (a : list A) (frame_length overlap : Z) :
  0 < frame_length → 0 ≤ overlap → overlap < frame_length →
  segment_axis a frame_length overlap =
    inr (frame_at a frame_length overlap
           <$> seqZ 0 (frame_count (len a) frame_length overlap)).
Proof.
  intros Hfl Hov Hlt. unfold segment_axis.
  destruct (Z.leb_spec frame_length 0); [lia|].
  destruct (Z.leb_spec frame_length overlap); [lia|].
  destruct (Z.ltb_spec overlap 0); [lia|]. done.
Qed.

Lemma segment_axis_invalid {A} (a : list A) (frame_length overlap : Z) :
  frame_length ≤ 0 ∨ frame_length ≤ overlap ∨ overlap < 0 →
  ∃ msg, segment_axis a frame_length overlap = inl (ValueError msg).
Proof.
  intros Hbad. unfold segment_axis.
  destruct (Z.leb_spec frame_length 0); [by eexists|].
  destruct (Z.leb_spec frame_length overlap); [by eexists|].
  destruct (Z.ltb_spec overlap 0); [by eexists|]. lia.
Qed.

Lemma segment_axis_inr {A} (a : list A) (frame_length overlap : Z)
    (frames : list (list A)) :
  segment_axis a frame_length overlap = inr frames →
  0 < frame_length ∧ 0 ≤ overlap ∧ overlap < frame_length ∧
  frames = frame_at a frame_length overlap
             <$> seqZ 0 (frame_count (len a) frame_length overlap).
Proof.
  unfold segment_axis.
  destruct (Z.leb_spec frame_length 0); [done|].
  destruct (Z.leb_spec frame_length overlap); [done|].
  destruct (Z.ltb_spec overlap 0); [done|].
  intros [= <-]. done.
Qed.

(** Every frame lies within the array, and one more frame would not. *)
Lemma frame_count_fits (L frame_length overlap k : Z) :
  0 ≤ overlap → overlap < frame_length →
  0 ≤ k < frame_count L frame_length overlap →
  k * (frame_length - overlap) + frame_length ≤ L.
Proof.
  intros Hov Hlt. unfold frame_count.
  destruct (Z.ltb_spec L frame_length); [lia|]. intros Hk.
  pose proof (Z.mul_div_le (L - overlap) (frame_length - overlap) ltac:(lia)).
  nia.
Qed.

Lemma frame_count_maximal (L frame_length overlap : Z) :
  0 ≤ overlap → overlap < frame_length →
  L < frame_count L frame_length overlap * (frame_length - overlap)
        + frame_length.
Proof.
  intros Hov Hlt. unfold frame_count.
  destruct (Z.ltb_spec L frame_length); [lia|].
  pose proof (Z.mul_succ_div_gt (L - overlap) (frame_length - overlap)
                ltac:(lia)).
  nia.
Qed.

Lemma length_frame_at {A} (a : list A) (frame_length overlap k : Z) :
  0 ≤ overlap → overlap < frame_length →
  0 ≤ k < frame_count (len a) frame_length overlap →
  len (frame_at a frame_length overlap k) = frame_length.
Proof.
  intros Hov Hlt Hk.
  pose proof (frame_count_fits _ _ _ _ Hov Hlt Hk) as Hfit.
  unfold frame_at, len in *. rewrite length_take, length_drop. nia.
Qed.

(** When the frames reach the end of the array, their number and the offset
    of the last one. *)
Lemma frame_count_exact (L frame_length overlap : Z) :
  0 ≤ overlap → overlap < frame_length → frame_length ≤ L →
  (L - frame_length) `mod` (frame_length - overlap) = 0 →
  frame_count L frame_length overlap =
    (L - frame_length) `div` (frame_length - overlap) + 1 ∧
  (L - frame_length) `div` (frame_length - overlap) * (frame_length - overlap)
    = L - frame_length ∧
  0 ≤ (L - frame_length) `div` (frame_length - overlap).
Proof.
  intros Hov Hlt HL Hmod. unfold frame_count.
  destruct (Z.ltb_spec L frame_length); [lia|].
  pose proof (Z.div_mod (L - frame_length) (frame_length - overlap) ltac:(lia))
    as Hdm.
  rewrite Hmod, Z.add_0_r in Hdm.
  set (q := (L - frame_length) `div` (frame_length - overlap)) in *.
  assert (0 ≤ q) by (apply Z.div_pos; lia).
  split_and!; [|lia|done].
  replace (L - overlap) with ((q + 1) * (frame_length - overlap)) by lia.
  rewrite Z.div_mul by lia. done.
Qed.

Lemma last_frame {A} (a : list A) (frame_length overlap : Z) :
  0 ≤ overlap → overlap < frame_length → frame_length ≤ len a →
  (len a - frame_length) `mod` (frame_length - overlap) = 0 →
  last (frame_at a frame_length overlap
          <$> seqZ 0 (frame_count (len a) frame_length overlap))
  = Some (drop (Z.to_nat (len a - frame_length)) a).
Proof.
  intros Hov Hlt HL Hmod.
  destruct (frame_count_exact _ _ _ Hov Hlt HL Hmod) as (-> & Hq & Hq0).
  set (q := (len a - frame_length) `div` (frame_length - overlap)) in *.
  replace (q + 1) with (Z.of_nat (S (Z.to_nat q))) by lia.
  rewrite seqZ_S, fmap_snoc, last_snoc. f_equal.
  unfold frame_at. rewrite Z.add_0_l, Z2Nat.id, Hq by done.
  apply take_ge. rewrite length_drop. unfold len in *. lia.
Qed.

Lemma last_drop_lt {A} (a : list A) (k : nat) :
  (k < length a)%nat → last (drop k a) = last a.
Proof.
  intros Hk. rewrite !last_lookup, length_drop, lookup_drop. f_equal. lia.
Qed.

(** ** The maximum of a frame of boundary marks *)

Lemma foldl_max_spec (row : list Z) (x : Z) :
  x ≤ foldl Z.max x row ∧
  Forall (λ y, y ≤ foldl Z.max x row) row ∧
  foldl Z.max x row ∈ x :: row.
Proof.
  revert x. induction row as [|y row IH]; intros x; simpl.
  - split_and!; [lia|constructor|constructor].
  - destruct (IH (Z.max x y)) as (Hle & Hall & Hin).
    split_and!; [lia|constructor; [lia|done]|].
    apply elem_of_cons in Hin as [Hm|Hin].
    + rewrite Hm. destruct (Z.max_spec x y) as [[_ ->]|[_ ->]].
      * apply elem_of_cons. right. constructor.
      * constructor.
    + do 2 (apply elem_of_cons; right). done.
Qed.

Lemma amax_spec (row : list Z) (m : Z) :
  amax row = Some m → m ∈ row ∧ Forall (λ y, y ≤ m) row.
Proof.
  destruct row as [|x row]; [done|]. intros [= <-].
  destruct (foldl_max_spec row x) as (Hle & Hall & Hin).
  split; [done|]. by constructor.
Qed.

Lemma amax_marks (row : list Z) (m : Z) :
  amax row = Some m → last row = Some 1 → Forall (λ y, y ≤ 1) row → m = 1.
Proof.
  intros (Hin & Hall)%amax_spec Hlast%last_Some_elem_of Hle.
  rewrite Forall_forall in Hall, Hle.
  specialize (Hall 1 Hlast). specialize (Hle m Hin). lia.
Qed.

Lemma boundary_of_le (label boundary : list Z) :
  boundary_of label boundary → Forall (λ y, y ≤ 1) boundary.
Proof.
  intros (Hlen & Hcells & Hlast). apply Forall_lookup. intros j y Hj.
  assert (j < length label)%nat
    by (rewrite <- Hlen; by eapply lookup_lt_Some).
  destruct (decide (S j < length label)%nat) as [Hlt|Hge].
  - destruct (lookup_lt_is_Some_2 label j) as [x Hx]; [lia|].
    destruct (lookup_lt_is_Some_2 label (S j)) as [x' Hx']; [lia|].
    rewrite (Hcells j x x' Hx Hx') in Hj. injection Hj as <-.
    case_bool_decide; lia.
  - replace j with (pred (length label)) in Hj by lia.
    rewrite Hlast in Hj. injection Hj as <-. lia.
Qed.

Lemma boundary_of_last (label boundary : list Z) :
  boundary_of label boundary → last boundary = Some 1.
Proof. intros (Hlen & _ & Hlast). by rewrite last_lookup, Hlen. Qed.

(** The last aggregated mark of a boundary array whose frames reach its
    end. *)
Lemma last_max_frames (label boundary : list Z) (frame_length overlap : Z)
    (frames : list (list Z)) (maxima : list Z) :
  boundary_of label boundary →
  segment_axis boundary frame_length overlap = inr frames →
  max_axis1 frames = inr maxima →
  frame_length ≤ len boundary →
  (len boundary - frame_length) `mod` (frame_length - overlap) = 0 →
  last maxima = Some 1.
Proof.
  intros Hb (Hfl & Hov & Hlt & ->)%segment_axis_inr Hmax HL Hmod.
  unfold max_axis1 in Hmax.
  destruct (mapM amax _) as [m|] eqn:Hm; [|done]. injection Hmax as ->.
  apply mapM_Some_1, Forall2_last in Hm.
  rewrite last_frame in Hm by done.
  inversion Hm as [fr y Hy Hfr Hlast|]; subst. f_equal.
  apply (amax_marks _ _ Hy).
  - rewrite last_drop_lt by (unfold len in *; lia).
    by eapply boundary_of_last.
  - apply Forall_drop. by eapply boundary_of_le.
Qed.

(** ** The per-sequence transform with the spec's segmentation *)

(** What a completed labelling (lines 98-134) has computed. *)
Lemma label_sequence_Ok (c : corpus) (i : nat) (sequence : list Z)
    (enc_p enc_w end_p end_w info : list Z) :
  label_sequence c i sequence = Ok (enc_p, enc_w, (end_p, end_w), info) →
  length enc_p = length sequence ∧ length enc_w = length sequence ∧
  (1 ≤ length sequence)%nat ∧
  boundary_of enc_p end_p ∧ boundary_of enc_w end_w.
Proof.
  unfold label_sequence. intros H.
  destruct (index (sequences_to_phonemes c) _) as [[ps pe]|]; [|done].
  destruct (index (sequences_to_words c) _) as [[ws we]|]; [|done].
  simpl in H.
  set (p := encode (wav_dtype c) sequence (slice (phonemes c) ps pe)) in *.
  set (w := encode (wav_dtype c) sequence (slice (words c) ws we)) in *.
  assert (Hp : length p = length sequence) by apply length_encode.
  assert (Hw : length w = length sequence) by apply length_encode.
  destruct (boundaries p w) as [[ep ew]|] eqn:Hb; [|done]. simpl in H.
  destruct (index (speaker_id c) _) as [sid|]; [|done]. simpl in H.
  destruct (index (speaker_info_list c) _) as [row|]; [|done]. simpl in H.
  injection H as <- <- <- <- <-.
  destruct (decide (1 ≤ length sequence)%nat) as [Hlen|Hlen].
  - destruct (boundaries_nonempty p w) as (ep' & ew' & Hb' & Hbp & Hbw);
      [lia|congruence|].
    rewrite Hb in Hb'. injection Hb' as <- <-. done.
  - destruct p; [|simpl in Hp; lia]. by rewrite boundaries_empty in Hb.
Qed.

(** C6, as the code has it.  When the transform of a sequence completes,
    the last cell of each per-sample boundary array is [1]; the last cell of
    each per-frame boundary array is [1] when the last frame ends at the
    last sample, that is when the sequence has at least [frame_length]
    samples and [L - frame_length] is a multiple of
    [frame_length - overlap]. *)
Theorem C6_terminal_boundary (frame_length overlap : Z) (c : corpus)
    (i : nat) (sequence : list Z) (l : locals) :
  process_sequence segment_axis frame_length overlap c i sequence = Ok l →
  last (end_phoneme_samples l) = Some 1 ∧
  last (end_word_samples l) = Some 1 ∧
  (frame_length ≤ len sequence →
   (len sequence - frame_length) `mod` (frame_length - overlap) = 0 →
   last (end_phoneme l) = Some 1 ∧ last (end_word l) = Some 1).
Proof.
  unfold process_sequence. intros H.
  destruct (label_sequence c i sequence)
    as [[[[enc_p enc_w] [end_p end_w]] info]|] eqn:Hlab; [|done].
  apply label_sequence_Ok in Hlab as (Hp & Hw & Hlen & Hbp & Hbw).
  simpl in H.
  destruct (segment_axis sequence _ _) as [|frames]; [done|]. simpl in H.
  destruct (segment_axis enc_p _ _) as [|fp]; [done|]. simpl in H.
  destruct (segment_axis enc_w _ _) as [|fw]; [done|]. simpl in H.
  destruct (segment_axis end_p _ _) as [|fep] eqn:Hfep; [done|]. simpl in H.
  destruct (max_axis1 fep) as [|mp] eqn:Hmp; [done|]. simpl in H.
  destruct (segment_axis end_w _ _) as [|few] eqn:Hfew; [done|]. simpl in H.
  destruct (max_axis1 few) as [|mw] eqn:Hmw; [done|]. simpl in H.
  injection H as <-. simpl.
  assert (len end_p = len sequence)
    by (unfold len; destruct Hbp as [-> _]; by rewrite Hp).
  assert (len end_w = len sequence)
    by (unfold len; destruct Hbw as [-> _]; by rewrite Hw).
  split_and!.
  - by eapply boundary_of_last.
  - by eapply boundary_of_last.
  - intros HL Hmod. split.
    + eapply (last_max_frames enc_p end_p); eauto; congruence.
    + eapply (last_max_frames enc_w end_w); eauto; congruence.
Qed.

Lemma C6_terminal_boundary_witness :
  ∃ l, process_sequence segment_axis 2 1 small_corpus 0 [3; 1; 4; 1; 5] = Ok l ∧
    last (end_phoneme_samples l) = Some 1 ∧
    last (end_word_samples l) = Some 1 ∧
    last (end_phoneme l) = Some 1 ∧
    last (end_word l) = Some 1.
Proof.
  eexists. split; [vm_compute; reflexivity|].
  destruct (C6_terminal_boundary 2 1 small_corpus 0 [3; 1; 4; 1; 5] _
              ltac:(vm_compute; reflexivity)) as (Hp & Hw & Hframes).
  destruct Hframes as [Hfp Hfw].
  - vm_compute. discriminate.
  - vm_compute. reflexivity.
  - split_and!; [exact Hp|exact Hw|exact Hfp|exact Hfw].
Defined.

(** The frames of two samples without overlap leave the fifth sample of
    [small_corpus]'s first sequence out: its forced mark is lost. *)
Lemma C6_counterexample :
  ¬ (∀ l, process_sequence segment_axis 2 0 small_corpus 0 [3; 1; 4; 1; 5] = Ok l →
       last (end_phoneme_samples l) = Some 1 ∧
       last (end_word_samples l) = Some 1 ∧
       last (end_phoneme l) = Some 1 ∧
       last (end_word l) = Some 1).
Proof.
  intros H.
  destruct (H _ ltac:(vm_compute; reflexivity)) as (_ & _ & Hp & _).
  vm_compute in Hp. discriminate.
Qed.

(** ** Configuration errors *)

(** C4, as the code has it.  The constructor stores [frame_length] and
    [overlap] without checking them.  With a valid [which_set] and
    [frame_length <= 0], [overlap >= frame_length] or [overlap < 0], nothing
    is raised before the loop; the configuration error is raised by the
    first segmentation call (line 137), while the first sequence is
    processed and after its labels and boundaries have been computed,
    unless that labelling raises first; without sequences no configuration
    error is raised at all. *)
Theorem C4_configuration_error {R : Type} (which_set : string)
    (frame_length overlap frames_per_example : Z) (rng : R) (c : corpus) :
  which_set ∈ valid_sets →
  frame_length ≤ 0 ∨ frame_length ≤ overlap ∨ overlap < 0 →
  (∀ line e,
     init segment_axis which_set frame_length overlap frames_per_example rng c
       ≠ RaisedAtCheck line e) ∧
  match raw_wav c with
  | [] =>
      ∃ st,
        init segment_axis which_set frame_length overlap frames_per_example
             rng c
          = RaisedAfterLoop st 184 (NameError "VectorSpace")
  | sequence :: _ =>
      match label_sequence c 0 sequence with
      | Ok _ =>
          ∃ msg,
            init segment_axis which_set frame_length overlap
                 frames_per_example rng c
              = RaisedInLoop 0 137 (ValueError msg)
      | Raise line e =>
          init segment_axis which_set frame_length overlap frames_per_example
               rng c
            = RaisedInLoop 0 line e
      end
  end.
Proof.
  intros Hws Hbad. unfold init, check_which_set.
  rewrite bool_decide_eq_true_2 by done. split.
  - intros line e. by repeat case_match.
  - unfold loop. destruct (raw_wav c) as [|sequence rest]; cbn [loop_from].
    + rewrite data_specs_raises. by eexists.
    + unfold process_sequence.
      destruct (label_sequence c 0 sequence)
        as [[[[enc_p enc_w] [end_p end_w]] info]|line e]; simpl; [|done].
      destruct (segment_axis_invalid sequence _ _ Hbad) as [msg ->]. simpl.
      by exists msg.
Qed.

Lemma C4_configuration_error_witness :
  ((∀ line e,
      init segment_axis "train" 0 0 1 _default_seed small_corpus
        ≠ RaisedAtCheck line e) ∧
   ∃ msg,
     init segment_axis "train" 0 0 1 _default_seed small_corpus
       = RaisedInLoop 0 137 (ValueError msg)) ∧
  ((∀ line e,
      init segment_axis "test" 20 (-1) 1 _default_seed no_sequences
        ≠ RaisedAtCheck line e) ∧
   ∃ st,
     init segment_axis "test" 20 (-1) 1 _default_seed no_sequences
       = RaisedAfterLoop st 184 (NameError "VectorSpace")).
Proof.
  split.
  - apply (C4_configuration_error "train" 0 0 1 _default_seed small_corpus).
    + unfold valid_sets. repeat constructor.
    + left. lia.
  - apply (C4_configuration_error "test" 20 (-1) 1 _default_seed no_sequences).
    + unfold valid_sets. repeat constructor.
    + right. right. lia.
Defined.

(** With [frame_length = 0] the exception comes out of the loop, from the
    processing of the first sequence, not from a check before it. *)
Lemma C4_counterexample :
  ¬ ∃ line e,
      init segment_axis "train" 0 0 1 _default_seed small_corpus
        = RaisedAtCheck line e.
Proof. intros (line & e & H). vm_compute in H. discriminate. Qed.

(** ** The end-to-end scenario *)

(** The loop on the scenario, for any 100 samples. *)
Lemma end_to_end_loop (sequence : list Z) :
  length sequence = 100%nat →
  loop segment_axis 20 10 1 (end_to_end sequence) =
    Completed
      {| self_raw_wav := [Frames (frame_at sequence 20 10 <$> seqZ 0 9)];
         visiting_order := (λ j, (0%nat, j)) <$> seqZ 0 8;
         segmented_sequences := [frame_at sequence 20 10 <$> seqZ 0 9];
         segmented_phonemes := [];
         segmented_words := [];
         segmented_speaker_info := [] |}.
Proof.
  intros H.
  do 100 (destruct sequence as [|? sequence]; [discriminate H|]).
  destruct sequence; [|discriminate H].
  vm_compute. reflexivity.
Qed.

(** C5, as the code has it.  For a sequence of 100 samples with the phoneme
    annotation [(10, 50, 3)], [frame_length = 20], [overlap = 10] and
    [frames_per_example = 1], the sequence has 9 frames and contributes
    exactly the 8 references with offsets 0 to 7: the last frame is kept as
    the target of the window before it. *)
Theorem C5_end_to_end (sequence : list Z) :
  length sequence = 100%nat →
  ∃ st frames,
    loop segment_axis 20 10 1 (end_to_end sequence) = Completed st ∧
    segmented_sequences st = [frames] ∧
    len frames = 9 ∧
    frame_count (len sequence) 20 10 = 9 ∧
    visiting_order st =
      [(0%nat, 0); (0%nat, 1); (0%nat, 2); (0%nat, 3);
       (0%nat, 4); (0%nat, 5); (0%nat, 6); (0%nat, 7)].
Proof.
  intros H. eexists _, _. split; [by apply end_to_end_loop|].
  unfold len. rewrite H. by split_and!.
Qed.

Lemma C5_end_to_end_witness :
  ∃ st frames,
    loop segment_axis 20 10 1 (end_to_end (replicate 100 0)) = Completed st ∧
    segmented_sequences st = [frames] ∧
    len frames = 9 ∧
    frame_count (len (replicate 100 0)) 20 10 = 9 ∧
    visiting_order st =
      [(0%nat, 0); (0%nat, 1); (0%nat, 2); (0%nat, 3);
       (0%nat, 4); (0%nat, 5); (0%nat, 6); (0%nat, 7)].
Proof. apply (C5_end_to_end (replicate 100 0)). reflexivity. Defined.

(** The sequence does not contribute nine references. *)
Lemma C5_counterexample :
  ¬ ∃ st frames,
      loop segment_axis 20 10 1 (end_to_end (replicate 100 0)) = Completed st ∧
      segmented_sequences st = [frames] ∧
      len frames = 9 ∧
      visiting_order st = (λ j, (0%nat, j)) <$> seqZ 0 9.
Proof.
  intros (st & frames & Hst & _ & _ & Hvo).
  vm_compute in Hst. injection Hst as <-.
  vm_compute in Hvo. discriminate.
Qed.

(** * Further properties of the constructor *)

(** ** Densification without a precondition on the annotations *)

(** X1.  Densification never raises and never resizes the array: an
    annotation's bounds are clipped to the sequence, a negative bound
    counting from its end.  Each sample holds the label of the last
    annotation whose clipped range covers it, that is [unit + 1] converted
    to the dtype of the recording (wrapping around when it does not fit),
    and [0] when no annotation covers it. *)
Theorem encode_clipped (d : dtype) (sequence : list Z)
    (annotations : list annotation) (k : nat) :
  (k < length sequence)%nat →
  length (encode d sequence annotations) = length sequence ∧
  (∀ i a, annotations !! i = Some a → covers_clipped (len sequence) a k →
     (∀ j b, (i < j)%nat → annotations !! j = Some b →
             ¬ covers_clipped (len sequence) b k) →
     encode d sequence annotations !! k = Some (astype d (a.2 + 1))) ∧
  ((∀ a, a ∈ annotations → ¬ covers_clipped (len sequence) a k) →
     encode d sequence annotations !! k = Some 0).
Proof.
  intros Hk. split; [apply length_encode|].
  induction annotations as [|[[start stop] unit] annotations IH] using rev_ind.
  - split.
    + intros i a Hi. by rewrite lookup_nil in Hi.
    + intros _. unfold encode, zeros_like. simpl. by apply lookup_replicate_2.
  - destruct IH as [IH1 IH2].
    assert (Hlook :
      encode d sequence (annotations ++ [(start, stop, unit)]) !! k
        = if bool_decide (covers_clipped (len sequence) (start, stop, unit) k)
          then Some (astype d (unit + 1))
          else encode d sequence annotations !! k).
    { rewrite encode_snoc, lookup_slice_assign by (by rewrite length_encode).
      unfold len. by rewrite length_encode. }
    split.
    + intros i a Hi Hcov Hlater. etrans; [exact Hlook|].
      destruct (decide (i < length annotations)%nat) as [Hlt|Hge].
      * rewrite lookup_app_l in Hi by done.
        rewrite bool_decide_eq_false_2.
        2:{ apply (Hlater (length annotations)); [done|].
            by rewrite lookup_app_r, Nat.sub_diag by lia. }
        apply (IH1 i a Hi Hcov). intros j b Hj Hb.
        apply (Hlater j b Hj). by apply lookup_app_l_Some.
      * rewrite lookup_app_r in Hi by lia.
        apply list_lookup_singleton_Some in Hi as [_ <-].
        by rewrite bool_decide_eq_true_2.
    + intros Hnone. etrans; [exact Hlook|]. rewrite bool_decide_eq_false_2.
      2:{ apply Hnone. apply elem_of_app. right. by apply list_elem_of_singleton. }
      apply IH2. intros a Ha. apply Hnone. apply elem_of_app. by left.
Qed.

(** An annotation that runs past the end, with a label that 16 bits do not
    hold, and one with negative bounds, on six samples: sample 5 is covered
    by [(4, 9, 40000)] (clipped to [4..6]) and by no later annotation, and
    holds 40001 converted to int16. *)
Lemma encode_clipped_witness :
  length (encode int16 [5; 6; 7; 8; 9; 10] [(4, 9, 40000); (-5, -3, 2)])
    = 6%nat ∧
  encode int16 [5; 6; 7; 8; 9; 10] [(4, 9, 40000); (-5, -3, 2)] !! 5%nat
    = Some (-25535).
Proof.
  destruct (encode_clipped int16 [5; 6; 7; 8; 9; 10]
              [(4, 9, 40000); (-5, -3, 2)] 5)
    as (Hlen & Hcov & _); [simpl; lia|].
  split; [exact Hlen|].
  apply (Hcov 0%nat (4, 9, 40000)).
  - reflexivity.
  - unfold covers_clipped, clip, len. simpl. lia.
  - intros j b Hj Hb. destruct j as [|[|j]]; [lia| |done].
    injection Hb as <-. unfold covers_clipped, clip, len. simpl. lia.
Defined.

(** ** When the labelling of a sequence raises *)

Lemma index_nat {A} (a : list A) (i : nat) : index a (Z.of_nat i) = a !! i.
Proof.
  unfold index, len.
  destruct (Z.ltb_spec (Z.of_nat i) 0); [lia|].
  destruct (Z.leb_spec 0 (Z.of_nat i)); [|lia].
  destruct (Z.ltb_spec (Z.of_nat i) (Z.of_nat (length a))); simpl.
  - by rewrite Nat2Z.id.
  - symmetry. apply lookup_ge_None. lia.
Qed.

(** [a[i]] is defined exactly for [-len(a) <= i < len(a)]. *)
Lemma index_is_Some {A} (a : list A) (i : Z) :
  is_Some (index a i) ↔ - len a ≤ i < len a.
Proof.
  unfold index. pose proof (len_nonneg a) as Hlen.
  assert (Hnone : is_Some (@None A) ↔ False)
    by (split; [by intros [? ?]|done]).
  destruct (Z.ltb_spec i 0) as [Hi|Hi].
  - destruct (Z.leb_spec 0 (i + len a));
      destruct (Z.ltb_spec (i + len a) (len a)); simpl;
      rewrite ?Hnone, ?lookup_lt_is_Some; unfold len in *; lia.
  - destruct (Z.leb_spec 0 i); destruct (Z.ltb_spec i (len a)); simpl;
      rewrite ?Hnone, ?lookup_lt_is_Some; unfold len in *; lia.
Qed.

(** X2.  The labelling of sequence [i] (lines 98-134) can only raise
    IndexError, and in this order: at line 99 or 109 when the sequence has
    no row in [sequences_to_phonemes] or [sequences_to_words], at line 128
    when the recording has no samples, at line 132 when it has no speaker,
    and at line 134 when the speaker's id is outside the speaker table
    (a negative id above [-len] is accepted and counts from the end).
    Otherwise it completes, with the speaker's row. *)
Theorem label_sequence_outcome (c : corpus) (i : nat) (sequence : list Z) :
  match label_sequence c i sequence with
  | Ok (_, _, _, info) =>
      is_Some (sequences_to_phonemes c !! i) ∧
      is_Some (sequences_to_words c !! i) ∧
      sequence ≠ [] ∧
      ∃ sid, speaker_id c !! i = Some sid ∧
        - len (speaker_info_list c) ≤ sid < len (speaker_info_list c) ∧
        index (speaker_info_list c) sid = Some info
  | Raise line e =>
      e = IndexError ∧
      ((line = 99%nat ∧ sequences_to_phonemes c !! i = None) ∨
       (line = 109%nat ∧ is_Some (sequences_to_phonemes c !! i) ∧
        sequences_to_words c !! i = None) ∨
       (line = 128%nat ∧ is_Some (sequences_to_phonemes c !! i) ∧
        is_Some (sequences_to_words c !! i) ∧ sequence = []) ∨
       (line = 132%nat ∧ is_Some (sequences_to_phonemes c !! i) ∧
        is_Some (sequences_to_words c !! i) ∧ sequence ≠ [] ∧
        speaker_id c !! i = None) ∨
       (line = 134%nat ∧ is_Some (sequences_to_phonemes c !! i) ∧
        is_Some (sequences_to_words c !! i) ∧ sequence ≠ [] ∧
        ∃ sid, speaker_id c !! i = Some sid ∧
          ¬ (- len (speaker_info_list c) ≤ sid < len (speaker_info_list c))))
  end.
Proof.
  unfold label_sequence. rewrite !index_nat.
  destruct (sequences_to_phonemes c !! i) as [[ps pe]|]; simpl; [|by auto].
  destruct (sequences_to_words c !! i) as [[ws we]|]; simpl;
    [|by eauto 10].
  set (p := encode (wav_dtype c) sequence (slice (phonemes c) ps pe)).
  set (w := encode (wav_dtype c) sequence (slice (words c) ws we)).
  assert (Hp : length p = length sequence) by apply length_encode.
  assert (Hw : length w = length sequence) by apply length_encode.
  destruct sequence as [|x sequence].
  { destruct p; [|done]. rewrite boundaries_empty. simpl.
    split; [done|]. right. right. left. eauto. }
  destruct (boundaries_nonempty p w) as (ep & ew & -> & _);
    [rewrite Hp; simpl; lia|congruence|].
  simpl. destruct (speaker_id c !! i) as [sid|]; simpl.
  2:{ split; [done|]. do 3 right. left. eauto 10. }
  destruct (index (speaker_info_list c) sid) as [info|] eqn:Hinfo; simpl.
  - split_and!; [eauto..|]. exists sid. split; [done|]. split; [|done].
    apply index_is_Some. by rewrite Hinfo.
  - split; [done|]. do 4 right. split_and!; [eauto..|].
    exists sid. split; [done|]. intros Hin%index_is_Some.
    rewrite Hinfo in Hin. by destruct Hin.
Qed.

(** ** How the loop ends *)

Lemma loop_from_outcome (segment : list Z → Z → Z → exn + list (list Z))
    (frame_length overlap frames_per_example : Z) (c : corpus)
    (rest : list (list Z)) (i : nat) (st : loop_state) :
  match loop_from segment frame_length overlap frames_per_example c i rest st
  with
  | Completed _ =>
      ∀ k sequence, rest !! k = Some sequence →
        ∃ l, process_sequence segment frame_length overlap c (i + k) sequence
               = Ok l
  | Interrupted j line e =>
      ∃ k sequence, j = (i + k)%nat ∧ rest !! k = Some sequence ∧
        process_sequence segment frame_length overlap c j sequence
          = Raise line e ∧
        ∀ k' sequence', (k' < k)%nat → rest !! k' = Some sequence' →
          ∃ l, process_sequence segment frame_length overlap c (i + k')
                 sequence' = Ok l
  end.
Proof.
  revert i st. induction rest as [|sequence rest IH]; intros i st; simpl.
  - intros k s Hk. by rewrite lookup_nil in Hk.
  - destruct (process_sequence _ _ _ _ _ _) as [l|line e] eqn:Hl.
    + specialize (IH (S i) (store frames_per_example i l st)).
      destruct (loop_from _ _ _ _ _ _ _ _) as [st'|j line e].
      * intros [|k] s Hk; simpl in Hk.
        -- injection Hk as <-. rewrite Nat.add_0_r. by exists l.
        -- replace (i + S k)%nat with (S i + k)%nat by lia. by apply IH.
      * destruct IH as (k & s & -> & Hk & Hraise & Hbefore).
        exists (S k), s. split_and!; [lia|done|done|].
        intros [|k'] s' Hlt Hk'; simpl in Hk'.
        -- injection Hk' as <-. rewrite Nat.add_0_r. by exists l.
        -- replace (i + S k')%nat with (S i + k')%nat by lia.
           apply Hbefore; [lia|done].
    + exists 0%nat, sequence. rewrite Nat.add_0_r.
      split_and!; [done|done|done|]. intros k' s' Hlt. lia.
Qed.

(** X3.  The loop stops at the first sequence whose transform raises, with
    that exception, after all earlier sequences have been transformed; it
    completes exactly when the transform of every sequence completes.  No
    sequence is skipped and nothing is retried. *)
Theorem loop_fail_fast (segment : list Z → Z → Z → exn + list (list Z))
    (frame_length overlap frames_per_example : Z) (c : corpus) :
  match loop segment frame_length overlap frames_per_example c with
  | Completed _ =>
      ∀ i sequence, raw_wav c !! i = Some sequence →
        ∃ l, process_sequence segment frame_length overlap c i sequence = Ok l
  | Interrupted i line e =>
      (∃ sequence, raw_wav c !! i = Some sequence ∧
         process_sequence segment frame_length overlap c i sequence
           = Raise line e) ∧
      ∀ j sequence, (j < i)%nat → raw_wav c !! j = Some sequence →
        ∃ l, process_sequence segment frame_length overlap c j sequence = Ok l
  end.
Proof.
  unfold loop.
  match goal with
  | |- context [loop_from _ _ _ _ _ _ _ ?st] =>
      pose proof (loop_from_outcome segment frame_length overlap
                    frames_per_example c (raw_wav c) 0 st) as H
  end.
  destruct (loop_from _ _ _ _ _ _ _ _) as [st'|i line e].
  - exact H.
  - destruct H as (k & s & -> & Hk & Hraise & Hbefore). simpl in *.
    split; [by exists s|]. intros j s' Hj Hs'. by eapply Hbefore.
Qed.

(** ** The state that a completed loop leaves *)

(** The final state in closed form: the frames of each recording, as the
    segmentation returns them, and the references built from their
    counts. *)
Lemma loop_completed (segment : list Z → Z → Z → exn + list (list Z))
    (frame_length overlap frames_per_example : Z) (c : corpus)
    (st : loop_state) :
  loop segment frame_length overlap frames_per_example c = Completed st →
  Forall2 (λ sequence frames,
             segment sequence frame_length overlap = inr frames)
          (raw_wav c) (segmented_sequences st) ∧
  st = {| self_raw_wav := Frames <$> segmented_sequences st;
          visiting_order :=
            window_references frames_per_example
              (len <$> segmented_sequences st);
          segmented_sequences := segmented_sequences st;
          segmented_phonemes := [];
          segmented_words := [];
          segmented_speaker_info := [] |}.
Proof.
  intros Hst. unfold loop in Hst.
  set (st0 := {| self_raw_wav := Samples <$> raw_wav c; visiting_order := [];
                 segmented_sequences := []; segmented_phonemes := [];
                 segmented_words := []; segmented_speaker_info := [] |}) in Hst.
  assert (Hinv0 : loop_inv frames_per_example (raw_wav c) st0) by done.
  pose proof (loop_from_inv segment frame_length overlap frames_per_example
                c _ _ Hinv0) as Hloop.
  simpl in Hloop. rewrite Hst in Hloop.
  destruct Hloop as [(Hraw & Hvo & Hp & Hw & Hs) _].
  apply loop_from_frames in Hst as (new & Hnew & Hall). simpl in Hnew.
  rewrite app_nil_r in Hraw. rewrite <- Hnew in Hall. split; [done|].
  destruct st; simpl in *. by subst.
Qed.

Lemma Forall2_functional {A B} (f : A → option B) (l : list A)
    (k1 k2 : list B) :
  Forall2 (λ x y, f x = Some y) l k1 →
  Forall2 (λ x y, f x = Some y) l k2 → k1 = k2.
Proof.
  intros H. revert k2. induction H as [|x y l k1 Hxy _ IH]; intros k2 H2.
  - by inversion H2.
  - inversion H2 as [|? y' ? k2' Hxy' H2']; subst. f_equal; [congruence|].
    by apply IH.
Qed.

(** X4.  What a completed loop leaves depends on the recordings and the
    configuration only: two corpora with the same recordings give the same
    frames, the same visiting order and the same (empty) label lists,
    whatever their annotations and speaker tables are. *)
Theorem loop_ignores_annotations
    (segment : list Z → Z → Z → exn + list (list Z))
    (frame_length overlap frames_per_example : Z) (c1 c2 : corpus)
    (st1 st2 : loop_state) :
  raw_wav c1 = raw_wav c2 →
  loop segment frame_length overlap frames_per_example c1 = Completed st1 →
  loop segment frame_length overlap frames_per_example c2 = Completed st2 →
  st1 = st2.
Proof.
  intros Hraw [H1 ->]%loop_completed [H2 ->]%loop_completed.
  rewrite Hraw in H1.
  assert (Hsegs : segmented_sequences st1 = segmented_sequences st2).
  { eapply (Forall2_functional
              (λ s, match segment s frame_length overlap with
                    | inr f => Some f | inl _ => None end) (raw_wav c2)).
    - eapply Forall2_impl; [exact H1|]. simpl. by intros s f ->.
    - eapply Forall2_impl; [exact H2|]. simpl. by intros s f ->. }
  by rewrite Hsegs.
Qed.

Lemma loop_ignores_annotations_witness :
  ∃ st, loop segment_axis 2 0 1 small_corpus = Completed st ∧
        loop segment_axis 2 0 1 relabelled_corpus = Completed st.
Proof.
  eexists. split; [vm_compute; reflexivity|].
  destruct (loop segment_axis 2 0 1 relabelled_corpus) as [st2|] eqn:H2;
    [|vm_compute in H2; discriminate].
  f_equal. symmetry.
  eapply (loop_ignores_annotations segment_axis 2 0 1
            small_corpus relabelled_corpus);
    [reflexivity|vm_compute; reflexivity|exact H2].
Defined.

(** ** The references of the visiting order *)

Lemma loop_references (segment : list Z → Z → Z → exn + list (list Z))
    (frame_length overlap frames_per_example : Z) (c : corpus)
    (st : loop_state) (i : nat) (j : Z) :
  loop segment frame_length overlap frames_per_example c = Completed st →
  (i, j) ∈ visiting_order st ↔
  ∃ frames, self_raw_wav st !! i = Some (Frames frames) ∧
            0 ≤ j < len frames - frames_per_example.
Proof.
  intros [_ ->]%loop_completed. simpl.
  rewrite elem_of_window_references. setoid_rewrite list_lookup_fmap.
  split.
  - intros (n & Hn & Hj).
    destruct (segmented_sequences st !! i) as [frames|]; [|done].
    injection Hn as <-. by exists frames.
  - intros (frames & Hi & Hj).
    destruct (segmented_sequences st !! i) as [frames'|]; [|done].
    injection Hi as ->. by exists (len frames).
Qed.

(** X5.  With [frames_per_example >= 0], every reference [(i, j)] of the
    visiting order points at a full training window: [self.raw_wav[i]]
    holds frames, and the frames [j], ..., [j + frames_per_example] (the
    input frames and the target frame after them) all exist. *)
Theorem references_in_bounds
    (segment : list Z → Z → Z → exn + list (list Z))
    (frame_length overlap frames_per_example : Z) (c : corpus)
    (st : loop_state) (i : nat) (j : Z) :
  0 ≤ frames_per_example →
  loop segment frame_length overlap frames_per_example c = Completed st →
  (i, j) ∈ visiting_order st →
  ∃ frames, self_raw_wav st !! i = Some (Frames frames) ∧ 0 ≤ j ∧
    ∀ k, 0 ≤ k ≤ frames_per_example →
      is_Some (frames !! Z.to_nat (j + k)).
Proof.
  intros Hfpe Hst Hin.
  apply (loop_references _ _ _ _ _ _ _ _ Hst) in Hin as (frames & Hi & Hj).
  exists frames. split_and!; [done|lia|].
  intros k Hk. apply lookup_lt_is_Some. unfold len in *. lia.
Qed.

Lemma references_in_bounds_witness :
  ∃ st frames,
    loop segment_axis 2 1 2 small_corpus = Completed st ∧
    (0%nat, 1) ∈ visiting_order st ∧
    self_raw_wav st !! 0%nat = Some (Frames frames) ∧
    ∀ k, 0 ≤ k ≤ 2 → is_Some (frames !! Z.to_nat (1 + k)).
Proof.
  assert (Hin : (0%nat, 1) ∈ [(0%nat, 0); (0%nat, 1)])
    by (apply list_elem_of_further, list_elem_of_here).
  destruct (references_in_bounds segment_axis 2 1 2 small_corpus
              _ 0%nat 1 ltac:(lia) ltac:(vm_compute; reflexivity) Hin)
    as (frames & Hi & _ & Hk).
  eexists _, frames. split_and!; [vm_compute; reflexivity|exact Hin|exact Hi|exact Hk].
Defined.

(** X6.  [frames_per_example] is not checked.  With a negative value the
    visiting order reaches past the frames: for every sequence, with [n]
    frames, it contains the reference [(i, n)], and there is no frame
    [n]. *)
Theorem negative_frames_per_example
    (segment : list Z → Z → Z → exn + list (list Z))
    (frame_length overlap frames_per_example : Z) (c : corpus)
    (st : loop_state) (i : nat) (frames : list (list Z)) :
  frames_per_example < 0 →
  loop segment frame_length overlap frames_per_example c = Completed st →
  self_raw_wav st !! i = Some (Frames frames) →
  (i, len frames) ∈ visiting_order st ∧
  frames !! Z.to_nat (len frames) = None.
Proof.
  intros Hfpe Hst Hi. split.
  - apply (loop_references _ _ _ _ _ _ _ _ Hst). exists frames.
    split; [done|]. unfold len. lia.
  - apply lookup_ge_None. unfold len. lia.
Qed.

Lemma negative_frames_per_example_witness :
  ∃ st, loop segment_axis 2 0 (-1) small_corpus = Completed st ∧
    (0%nat, len [[3; 1]; [4; 1]]) ∈ visiting_order st ∧
    [[3; 1]; [4; 1]] !! Z.to_nat (len [[3; 1]; [4; 1]]) = None.
Proof.
  eexists. split; [vm_compute; reflexivity|].
  apply (negative_frames_per_example segment_axis 2 0 (-1) small_corpus
           _ 0%nat [[3; 1]; [4; 1]]); [lia|vm_compute; reflexivity|reflexivity].
Defined.





(** ** The frame-level arrays of one sequence *)

(** What a completed transform of a sequence has computed, step by step. *)
Lemma process_sequence_Ok (segment : list Z → Z → Z → exn + list (list Z))
    (frame_length overlap : Z) (c : corpus) (i : nat) (sequence : list Z)
    (l : locals) :
  process_sequence segment frame_length overlap c i sequence = Ok l →
  label_sequence c i sequence =
    Ok (encoded_phonemes_sequence l, encoded_words_sequence l,
        (end_phoneme_samples l, end_word_samples l), speaker_info l) ∧
  segment sequence frame_length overlap = inr (segmented_sequence l) ∧
  (∃ frames,
     segment (encoded_phonemes_sequence l) frame_length overlap = inr frames ∧
     segmented_encoded_phonemes_sequence l = mode frames) ∧
  (∃ frames,
     segment (encoded_words_sequence l) frame_length overlap = inr frames ∧
     segmented_encoded_words_sequence l = mode frames) ∧
  (∃ frames,
     segment (end_phoneme_samples l) frame_length overlap = inr frames ∧
     max_axis1 frames = inr (end_phoneme l)) ∧
  (∃ frames,
     segment (end_word_samples l) frame_length overlap = inr frames ∧
     max_axis1 frames = inr (end_word l)).
Proof.
  unfold process_sequence. intros H.
  destruct (label_sequence c i sequence)
    as [[[[enc_p enc_w] [end_p end_w]] info]|]; [|done].
  simpl in H.
  destruct (segment sequence _ _) as [|frames] eqn:Hs; [done|]. simpl in H.
  destruct (segment enc_p _ _) as [|fp] eqn:Hfp; [done|]. simpl in H.
  destruct (segment enc_w _ _) as [|fw] eqn:Hfw; [done|]. simpl in H.
  destruct (segment end_p _ _) as [|fep] eqn:Hfep; [done|]. simpl in H.
  destruct (max_axis1 fep) as [|mp] eqn:Hmp; [done|]. simpl in H.
  destruct (segment end_w _ _) as [|few] eqn:Hfew; [done|]. simpl in H.
  destruct (max_axis1 few) as [|mw] eqn:Hmw; [done|]. simpl in H.
  injection H as <-. simpl. split_and!; eauto.
Qed.

Lemma length_max_axis1 (frames : list (list Z)) (maxima : list Z) :
  max_axis1 frames = inr maxima → length maxima = length frames.
Proof.
  unfold max_axis1. destruct (mapM amax frames) as [m|] eqn:Hm; [|done].
  intros [= <-]. symmetry. by eapply Forall2_length, mapM_Some_1.
Qed.

(** X8.  The arrays of a transformed sequence are aligned.  The two label
    arrays and the two per-sample boundary arrays have one cell per sample.
    If the segmentation returns as many frames for arrays of the same
    length, the per-frame labels and boundary marks have one cell per frame
    of the recording. *)
Theorem frames_aligned (segment : list Z → Z → Z → exn + list (list Z))
    (frame_length overlap : Z) (c : corpus) (i : nat) (sequence : list Z)
    (l : locals) :
  (∀ a b fa fb, length a = length b →
     segment a frame_length overlap = inr fa →
     segment b frame_length overlap = inr fb → length fa = length fb) →
  process_sequence segment frame_length overlap c i sequence = Ok l →
  (length (encoded_phonemes_sequence l) = length sequence ∧
   length (encoded_words_sequence l) = length sequence ∧
   length (end_phoneme_samples l) = length sequence ∧
   length (end_word_samples l) = length sequence) ∧
  (length (segmented_encoded_phonemes_sequence l)
     = length (segmented_sequence l) ∧
   length (segmented_encoded_words_sequence l)
     = length (segmented_sequence l) ∧
   length (end_phoneme l) = length (segmented_sequence l) ∧
   length (end_word l) = length (segmented_sequence l)).
Proof.
  intros Hseg (Hlab & Hs & (fp & Hfp & Hmp) & (fw & Hfw & Hmw)
               & (fep & Hfep & Hep) & (few & Hfew & Hew))%process_sequence_Ok.
  apply label_sequence_Ok in Hlab as (Hp & Hw & _ & [Hlp _] & [Hlw _]).
  assert (Hsamples :
    length (encoded_phonemes_sequence l) = length sequence ∧
    length (encoded_words_sequence l) = length sequence ∧
    length (end_phoneme_samples l) = length sequence ∧
    length (end_word_samples l) = length sequence)
    by (split_and!; congruence).
  split; [done|]. destruct Hsamples as (? & ? & ? & ?).
  rewrite Hmp, Hmw. unfold mode. rewrite !length_fmap.
  rewrite (length_max_axis1 _ _ Hep), (length_max_axis1 _ _ Hew).
  split_and!.
  - by apply (Hseg (encoded_phonemes_sequence l) sequence).
  - by apply (Hseg (encoded_words_sequence l) sequence).
  - by apply (Hseg (end_phoneme_samples l) sequence).
  - by apply (Hseg (end_word_samples l) sequence).
Qed.

Lemma length_segment_axis {A} (a : list A) (frame_length overlap : Z)
    (frames : list (list A)) :
  segment_axis a frame_length overlap = inr frames →
  length frames = Z.to_nat (frame_count (len a) frame_length overlap).
Proof.
  intros (_ & _ & _ & ->)%segment_axis_inr.
  by rewrite length_fmap, length_seqZ.
Qed.

Lemma frames_aligned_witness :
  ∃ l, process_sequence segment_axis 2 1 small_corpus 0 [3; 1; 4; 1; 5] = Ok l ∧
    (length (encoded_phonemes_sequence l) = 5%nat ∧
     length (encoded_words_sequence l) = 5%nat ∧
     length (end_phoneme_samples l) = 5%nat ∧
     length (end_word_samples l) = 5%nat) ∧
    (length (segmented_encoded_phonemes_sequence l)
       = length (segmented_sequence l) ∧
     length (segmented_encoded_words_sequence l)
       = length (segmented_sequence l) ∧
     length (end_phoneme l) = length (segmented_sequence l) ∧
     length (end_word l) = length (segmented_sequence l)).
Proof.
  eexists. split; [vm_compute; reflexivity|].
  apply (frames_aligned segment_axis 2 1 small_corpus 0 [3; 1; 4; 1; 5]).
  - intros a b fa fb Hab Ha%length_segment_axis Hb%length_segment_axis.
    unfold len in *. by rewrite Ha, Hb, Hab.
  - vm_compute. reflexivity.
Defined.

(** ** Boundary marks per frame *)

Lemma boundary_of_binary (label boundary : list Z) :
  boundary_of label boundary → ∀ y, y ∈ boundary → y = 0 ∨ y = 1.
Proof.
  intros (Hlen & Hcells & Hlast) y [j Hj]%list_elem_of_lookup_1.
  assert (j < length label)%nat
    by (rewrite <- Hlen; by eapply lookup_lt_Some).
  destruct (decide (S j < length label)%nat) as [Hlt|Hge].
  - destruct (lookup_lt_is_Some_2 label j) as [x Hx]; [lia|].
    destruct (lookup_lt_is_Some_2 label (S j)) as [x' Hx']; [lia|].
    rewrite (Hcells j x x' Hx Hx') in Hj. injection Hj as <-.
    case_bool_decide; auto.
  - replace j with (pred (length label)) in Hj by lia.
    rewrite Hlast in Hj. injection Hj as <-. auto.
Qed.

(** The maxima of frames whose cells are [0] or [1]. *)
Lemma max_axis1_any_mark (frames : list (list Z)) (maxima : list Z) :
  (∀ frame y, frame ∈ frames → y ∈ frame → y = 0 ∨ y = 1) →
  max_axis1 frames = inr maxima →
  Forall2 any_mark frames maxima.
Proof.
  intros Hbin. unfold max_axis1.
  destruct (mapM amax frames) as [m|] eqn:Hm; [|done]. intros [= <-].
  apply mapM_Some_1 in Hm.
  induction Hm as [|frame y frames m Hy _ IH]; constructor.
  - apply amax_spec in Hy as [Hin Hall]. rewrite Forall_forall in Hall.
    destruct (Hbin frame y) as [->| ->]; [constructor|done| |].
    + right. split; [done|]. intros H1%Hall. lia.
    + left. done.
  - apply IH. intros frame' y' Hf. apply Hbin. by constructor.
Qed.

(** X9.  The comment of line 167 holds: if every frame that the
    segmentation returns consists of cells of its array, then the boundary
    mark of a frame is [1] if a per-sample mark lies in the frame, and [0]
    if none does, for the phoneme and for the word boundaries. *)
Theorem frame_marks_or (segment : list Z → Z → Z → exn + list (list Z))
    (frame_length overlap : Z) (c : corpus) (i : nat) (sequence : list Z)
    (l : locals) :
  (∀ a frames frame y, segment a frame_length overlap = inr frames →
     frame ∈ frames → y ∈ frame → y ∈ a) →
  process_sequence segment frame_length overlap c i sequence = Ok l →
  ∃ phoneme_frames word_frames,
    segment (end_phoneme_samples l) frame_length overlap
      = inr phoneme_frames ∧
    segment (end_word_samples l) frame_length overlap = inr word_frames ∧
    Forall2 any_mark phoneme_frames (end_phoneme l) ∧
    Forall2 any_mark word_frames (end_word l).
Proof.
  intros Hseg (Hlab & _ & _ & _
               & (fep & Hfep & Hep) & (few & Hfew & Hew))%process_sequence_Ok.
  apply label_sequence_Ok in Hlab as (_ & _ & _ & Hbp & Hbw).
  exists fep, few. split_and!; [done|done| |].
  - apply max_axis1_any_mark; [|done]. intros frame y Hf Hy.
    eapply boundary_of_binary; [exact Hbp|]. by eapply Hseg.
  - apply max_axis1_any_mark; [|done]. intros frame y Hf Hy.
    eapply boundary_of_binary; [exact Hbw|]. by eapply Hseg.
Qed.

Lemma segment_axis_cells {A} (a : list A) (frame_length overlap : Z)
    (frames : list (list A)) (frame : list A) (y : A) :
  segment_axis a frame_length overlap = inr frames →
  frame ∈ frames → y ∈ frame → y ∈ a.
Proof.
  intros (_ & _ & _ & ->)%segment_axis_inr
         (k & -> & _)%list_elem_of_fmap Hy.
  unfold frame_at in Hy. by apply subseteq_take, subseteq_drop in Hy.
Qed.

Lemma frame_marks_or_witness :
  ∃ l phoneme_frames word_frames,
    process_sequence segment_axis 2 0 small_corpus 0 [3; 1; 4; 1; 5] = Ok l ∧
    segment_axis (end_phoneme_samples l) 2 0 = inr phoneme_frames ∧
    segment_axis (end_word_samples l) 2 0 = inr word_frames ∧
    Forall2 any_mark phoneme_frames (end_phoneme l) ∧
    Forall2 any_mark word_frames (end_word l).
Proof.
  eexists.
  destruct (frame_marks_or segment_axis 2 0 small_corpus 0 [3; 1; 4; 1; 5] _
              (λ a frames frame y, segment_axis_cells a 2 0 frames frame y)
              ltac:(vm_compute; reflexivity))
    as (pf & wf & H).
  exists pf, wf. split; [vm_compute; reflexivity|exact H].
Defined.

(** ** Labels per frame *)











(** ** The files that are loaded *)

(** What [os.path.join] puts before a relative second component. *)
Lemma os_path_join_relative (a b : string) :
  startswith b "/" = false →
  os_path_join a b =
    (if String.eqb a "" || endswith a "/" then a else a +:+ "/") +:+ b.
Proof.
  intros Hb. unfold os_path_join. rewrite Hb.
  case_match; [done|]. by rewrite append_assoc.
Qed.

Lemma append_inj_r (s t1 t2 : string) : s +:+ t1 = s +:+ t2 → t1 = t2.
Proof.
  induction s as [|c s IH]; [done|].
  change (String c (s +:+ t1) = String c (s +:+ t2) → t1 = t2).
  intros [= H]. by apply IH.
Qed.

Lemma NoDup_append (s : string) (names : list string) :
  NoDup names → NoDup (String.append s <$> names).
Proof.
  intros Hnd. apply NoDup_fmap_2_strong; [|done].
  intros t1 t2 _ _. apply append_inj_r.
Qed.

(** X11.  Whatever the data path is, the constructor reads twenty-three
    different files over the three partitions: the five shared tables and
    the six arrays of each partition are pairwise distinct paths, so no
    array is read from the file of another one and no two partitions share
    a data file; the shared tables are the same files for every
    partition. *)
Theorem data_files_distinct (data_path : string) :
  NoDup (shared_files (file_paths data_path "train")
           ++ partition_files (file_paths data_path "train")
           ++ partition_files (file_paths data_path "valid")
           ++ partition_files (file_paths data_path "test")) ∧
  shared_files (file_paths data_path "valid")
    = shared_files (file_paths data_path "train") ∧
  shared_files (file_paths data_path "test")
    = shared_files (file_paths data_path "train").
Proof.
  split; [|done].
  unfold shared_files, partition_files, file_paths. simpl.
  set (base := os_path_join data_path "timit/readable").
  rewrite !(os_path_join_relative base) by reflexivity.
  set (pre := if String.eqb base "" || endswith base "/"
              then base else base +:+ "/").
  apply (NoDup_append pre
    ["spkrinfo.npy"; "reduced_phonemes.pkl"; "words.pkl";
     "spkr_feature_names.pkl"; "speakers_ids.pkl";
     "train_x_raw.npy"; "train_redux_phn.npy"; "train_seq_to_phn.npy";
     "train_wrd.npy"; "train_seq_to_wrd.npy"; "train_spkr.npy";
     "valid_x_raw.npy"; "valid_redux_phn.npy"; "valid_seq_to_phn.npy";
     "valid_wrd.npy"; "valid_seq_to_wrd.npy"; "valid_spkr.npy";
     "test_x_raw.npy"; "test_redux_phn.npy"; "test_seq_to_phn.npy";
     "test_wrd.npy"; "test_seq_to_wrd.npy"; "test_spkr.npy"]%string).
  apply (bool_decide_unpack _). vm_compute. exact I.
Qed.

(** ** The exceptions of the constructor *)



